(** * KVStore: an MVCC key-value store with nested transactions

    A shallow embedding of [store.py] (class [Store]) and the properties of
    its read, write, commit, rollback, snapshot and SQLite flush/load paths.

    Conventions of the embedding:
    - a Python [dict] is an association list in insertion order (iteration
      order decides the timestamps an outer commit hands out and which key a
      conflict names); assigning to a key that is present keeps its place;
    - a Python [list] used as a stack keeps the Python order: the innermost
      frame is the last element, [append] adds at the end, [pop] takes the
      last element;
    - Python [int] is [Z];
    - a method that mutates [self] returns the new store; a method that can
      raise returns the store it leaves behind together with its outcome. *)

From Stdlib Require Import List ZArith String Bool Lia Sorted Permutation
  DecimalString.
Import ListNotations.
Local Open Scope Z_scope.

(** ** Python values *)

(** Keys are Python [str]s that have a UTF-8 encoding, written as that
    encoding. *)
Definition key := string.

Inductive exn : Type :=
| NoActiveTransaction
| WriteConflict (k : key)
| IndexError
| OverflowError
| UnicodeEncodeError
| ProgrammingError.

Inductive result (A : Type) : Type :=
| Ok (a : A)
| Raise (e : exn).
Arguments Ok {A} a.
Arguments Raise {A} e.

(** What the [value] column of the mirror's table can hold.  The column
    is declared [TEXT]: it holds NULL, text (kept as its UTF-8 bytes) or a
    blob; a number bound to it is stored as text. *)
Inductive sqlvalue : Type :=
| SqlNull
| SqlText (s : string)
| SqlBlob (b : string).

(** Any Python object other than [None], an [int], [bytes], or a [str]
    that has a UTF-8 encoding: a [float], a [bool], a [list], a [dict], a
    [str] with a lone surrogate, ...  The store never looks inside a
    value; the one place where its nature matters is where
    [flush_to_sqlite] binds it to a statement.  Such an object is therefore
    given by a name and by what sqlite3 does when it is bound to the
    [value] column: the column value stored, or the failure
    (UnicodeEncodeError for a [str] that cannot be encoded,
    ProgrammingError for a type sqlite3 does not support, OverflowError
    for an integer it cannot take). *)
Inductive binding : Type :=
| Stored (x : sqlvalue)
| CannotEncode
| NotSupported
| TooLarge.

Record pyobject : Type := mkObject {
  obj_repr : string;
  obj_bind : binding
}.

(** The payloads a caller can hand to [set]: [None], an [int], a [str]
    (written as its UTF-8 encoding), [bytes], or any other object. *)
Inductive value : Type :=
| VNone
| VInt (n : Z)
| VStr (s : string)
| VBytes (b : string)
| VObject (o : pyobject).

(** Some other objects: the float [0.1] and [True] are stored as text, a
    list cannot be bound, a lone surrogate cannot be encoded. *)
Definition py_float_tenth : value :=
  VObject (mkObject "0.1" (Stored (SqlText "0.1"))).
Definition py_True : value :=
  VObject (mkObject "True" (Stored (SqlText "1"))).
Definition py_list : value :=
  VObject (mkObject "[1]" NotSupported).
Definition py_lone_surrogate : value :=
  VObject (mkObject "'\ud800'" CannotEncode).

(** What a version entry or an overlay slot holds: a caller's value or the
    store's private sentinel [self._DELETED]. *)
Inductive payload : Type :=
| Val (v : value)
| DELETED.

(** ** Python dictionaries, in insertion order *)

Section Dict.
Context {V : Type}.

Definition dict := list (key * V).

(** [d.get(k)] *)
Fixpoint dict_get (k : key) (d : dict) : option V :=
  match d with
  | [] => None
  | (k', v) :: d' => if String.eqb k k' then Some v else dict_get k d'
  end.

(** [k in d] *)
Definition dict_mem (k : key) (d : dict) : bool :=
  match dict_get k d with Some _ => true | None => false end.

(** [d[k] = v] *)
Fixpoint dict_set (k : key) (v : V) (d : dict) : dict :=
  match d with
  | [] => [(k, v)]
  | (k', v') :: d' =>
      if String.eqb k k' then (k', v) :: d' else (k', v') :: dict_set k v d'
  end.

(** [d.pop(k, None)] *)
Fixpoint dict_pop (k : key) (d : dict) : dict :=
  match d with
  | [] => []
  | (k', v') :: d' =>
      if String.eqb k k' then d' else (k', v') :: dict_pop k d'
  end.

Definition keys (d : dict) : list key := map fst d.
End Dict.
Arguments dict V : clear implicits.

(** ** Python lists used from their end *)

(** [l.pop()]: the list without its last element, and that element. *)
Fixpoint pop {A : Type} (l : list A) : option (list A * A) :=
  match l with
  | [] => None
  | x :: l' =>
      match pop l' with
      | None => Some ([], x)
      | Some (r, y) => Some (x :: r, y)
      end
  end.

(** [l[-1]] *)
Definition last_item {A : Type} (l : list A) : option A :=
  match pop l with
  | Some (_, x) => Some x
  | None => None
  end.

(** ** The store *)

Definition version := (Z * payload)%type.
Definition chain := list version.
Definition overlay := dict payload.

Record Store : Type := mkStore {
  _versions : dict chain;
  _tx_stack : list overlay;
  _snapshots : list Z;
  _clock : Z;
  _sqlite_conn : option string;
  _sqlite_path : option string
}.

Definition with_versions (s : Store) (vs : dict chain) (c : Z) : Store :=
  mkStore vs (_tx_stack s) (_snapshots s) c (_sqlite_conn s) (_sqlite_path s).

Definition with_tx_stack (s : Store) (st : list overlay) : Store :=
  mkStore (_versions s) st (_snapshots s) (_clock s)
          (_sqlite_conn s) (_sqlite_path s).

Definition with_snapshots (s : Store) (sn : list Z) : Store :=
  mkStore (_versions s) (_tx_stack s) sn (_clock s)
          (_sqlite_conn s) (_sqlite_path s).

Definition with_conn (s : Store) (c : option string) : Store :=
  mkStore (_versions s) (_tx_stack s) (_snapshots s) (_clock s)
          c (_sqlite_path s).

(** [self._versions.setdefault(k, []).append(e)] *)
Definition setdefault_append (k : key) (e : version) (vs : dict chain)
  : dict chain :=
  match dict_get k vs with
  | Some c => dict_set k (c ++ [e]) vs
  | None => dict_set k [e] vs
  end.

(** The two lines every committed write consists of:
    [self._clock += 1] and
    [self._versions.setdefault(k, []).append((self._clock, v))]. *)
Definition write_version (s : Store) (k : key) (p : payload) : Store :=
  let c := _clock s + 1 in
  with_versions s (setdefault_append k (c, p) (_versions s)) c.

(** *** MVCC helpers *)

Definition _latest_committed (s : Store) (k : key) : option version :=
  match dict_get k (_versions s) with
  | Some c => last_item c
  | None => None
  end.

(** The loop [for vts, val in reversed(chain)] of
    [_committed_at_or_before], over the reversed chain.  Python's [None]
    is [VNone]. *)
Fixpoint scan_at_or_before (rchain : list version) (ts : Z) : value :=
  match rchain with
  | [] => VNone
  | (vts, val) :: rest =>
      if vts <=? ts
      then match val with DELETED => VNone | Val v => v end
      else scan_at_or_before rest ts
  end.

Definition _committed_at_or_before (s : Store) (k : key) (ts : Z) : value :=
  match dict_get k (_versions s) with
  | None => VNone
  | Some [] => VNone
  | Some c => scan_at_or_before (rev c) ts
  end.

(** [for k, v in src.items(): dst[k] = v] *)
Definition _merge_overlay_into (src dst : overlay) : overlay :=
  fold_left (fun d kv => dict_set (fst kv) (snd kv) d) src dst.

(** *** KV API *)

(** [self._tx_stack[-1][key] = p] on a non-empty stack. *)
Definition assign_innermost (s : Store) (rest : list overlay) (top : overlay)
  (k : key) (p : payload) : Store :=
  with_tx_stack s (rest ++ [dict_set k p top]).

Definition set (s : Store) (k : key) (v : value) : Store :=
  match pop (_tx_stack s) with
  | Some (rest, top) => assign_innermost s rest top k (Val v)
  | None => write_version s k (Val v)
  end.

Definition delete (s : Store) (k : key) : Store :=
  match pop (_tx_stack s) with
  | Some (rest, top) => assign_innermost s rest top k DELETED
  | None => write_version s k DELETED
  end.

(** The loop [for overlay in reversed(self._tx_stack)] of [get], over the
    reversed stack: the first overlay that contains the key decides. *)
Fixpoint overlay_hit (rstack : list overlay) (k : key) : option payload :=
  match rstack with
  | [] => None
  | o :: rest =>
      match dict_get k o with
      | Some p => Some p
      | None => overlay_hit rest k
      end
  end.

Definition get (s : Store) (k : key) (default : value) : result value :=
  match overlay_hit (rev (_tx_stack s)) k with
  | Some DELETED => Ok default
  | Some (Val v) => Ok v
  | None =>
      match _tx_stack s with
      | _ :: _ =>
          match last_item (_snapshots s) with
          | None => Raise IndexError
          | Some snap_ts =>
              match _committed_at_or_before s k snap_ts with
              | VNone => Ok default
              | val => Ok val
              end
          end
      | [] =>
          match _latest_committed s k with
          | None => Ok default
          | Some (_, DELETED) => Ok default
          | Some (_, Val v) => Ok v
          end
      end
  end.

(** *** Transactions *)

Definition begin (s : Store) : Store :=
  mkStore (_versions s) (_tx_stack s ++ [[]]) (_snapshots s ++ [_clock s])
          (_clock s) (_sqlite_conn s) (_sqlite_path s).

(** The validation loop of the outermost commit: the first key of the
    overlay whose latest committed version is newer than the snapshot. *)
Fixpoint first_conflict (s : Store) (ks : list key) (snap_ts : Z)
  : option key :=
  match ks with
  | [] => None
  | k :: ks' =>
      match _latest_committed s k with
      | Some (latest_ts, _) =>
          if latest_ts >? snap_ts then Some k
          else first_conflict s ks' snap_ts
      | None => first_conflict s ks' snap_ts
      end
  end.

(** [for k, v in top.items(): ...] of the outermost commit. *)
Definition write_all (s : Store) (top : overlay) : Store :=
  fold_left (fun st kv => write_version st (fst kv) (snd kv)) top s.

Definition commit (s : Store) : Store * result unit :=
  match pop (_tx_stack s) with
  | None => (s, Raise NoActiveTransaction)
  | Some (rest, top) =>
      let s1 := with_tx_stack s rest in
      match pop (_snapshots s1) with
      | None => (s1, Raise IndexError)
      | Some (snaps, snap_ts) =>
          let s2 := with_snapshots s1 snaps in
          match pop rest with
          | Some (below, parent) =>
              (with_tx_stack s2 (below ++ [_merge_overlay_into top parent]),
               Ok tt)
          | None =>
              match first_conflict s2 (keys top) snap_ts with
              | Some k => (s2, Raise (WriteConflict k))
              | None => (write_all s2 top, Ok tt)
              end
          end
      end
  end.

Definition rollback (s : Store) : Store * result unit :=
  match pop (_tx_stack s) with
  | None => (s, Raise NoActiveTransaction)
  | Some (rest, _) =>
      let s1 := with_tx_stack s rest in
      match pop (_snapshots s1) with
      | None => (s1, Raise IndexError)
      | Some (snaps, _) => (with_snapshots s1 snaps, Ok tt)
      end
  end.

(** *** Helpers *)

Definition in_transaction (s : Store) : bool :=
  match _tx_stack s with [] => false | _ :: _ => true end.

(** First loop of [snapshot] inside a transaction. *)
Fixpoint project_at (s : Store) (ks : list key) (snap_ts : Z)
  (res : dict value) : dict value :=
  match ks with
  | [] => res
  | k :: ks' =>
      match _committed_at_or_before s k snap_ts with
      | VNone => project_at s ks' snap_ts res
      | val => project_at s ks' snap_ts (dict_set k val res)
      end
  end.

(** First loop of [snapshot] outside a transaction: [chain[-1]] of each
    item. *)
Fixpoint project_latest (items : dict chain) (res : dict value)
  : result (dict value) :=
  match items with
  | [] => Ok res
  | (k, c) :: items' =>
      match last_item c with
      | None => Raise IndexError
      | Some (_, DELETED) => project_latest items' res
      | Some (_, Val v) => project_latest items' (dict_set k v res)
      end
  end.

(** Inner loop of the second phase of [snapshot]. *)
Definition apply_overlay (res : dict value) (o : overlay) : dict value :=
  fold_left
    (fun r kv =>
       match snd kv with
       | DELETED => dict_pop (fst kv) r
       | Val v => dict_set (fst kv) v r
       end) o res.

Definition snapshot (s : Store) : result (dict value) :=
  let base :=
    match _tx_stack s with
    | _ :: _ =>
        match last_item (_snapshots s) with
        | None => Raise IndexError
        | Some snap_ts => Ok (project_at s (keys (_versions s)) snap_ts [])
        end
    | [] => project_latest (_versions s) []
    end in
  match base with
  | Raise e => Raise e
  | Ok res => Ok (fold_left apply_overlay (_tx_stack s) res)
  end.

(** ** The SQLite mirror

    The file at [sqlite_path] holds one table,
    [kv (key TEXT PRIMARY KEY, value TEXT)].  Its rows are kept in scan
    order (the order of [SELECT key, value FROM kv]).  Limits of resources
    (memory, disk space, SQLite's maximum length of a string) are not
    modelled. *)

Definition table := list (key * sqlvalue).

(** Files by path. *)
Definition disk := dict table.

(** [sqlite3.connect(":memory:")] opens a database that is private to the
    connection and empty: no file holds it and no other connection sees
    it. *)
Definition memory_path : string := ":memory:".

(** The rows a new connection to [p] finds. *)
Definition disk_table (p : string) (d : disk) : table :=
  if String.eqb p memory_path then []
  else match dict_get p d with
       | Some t => t
       | None => []
       end.

Definition decimal (n : Z) : string := NilZero.string_of_int (Z.to_int n).

(** The integers SQLite can take: signed, 64 bits. *)
Definition sqlite_int (n : Z) : bool := (- 2 ^ 63 <=? n) && (n <? 2 ^ 63).
Arguments sqlite_int n : simpl never.

(** What binding a Python value to the [value] column stores, or the
    exception [execute] raises: [None] is NULL, a [str] is its text,
    [bytes] are a blob, an [int] is stored as its decimal text and raises
    OverflowError outside the signed 64-bit range, any other object does
    what it does. *)
Definition bind_value (v : value) : result sqlvalue :=
  match v with
  | VNone => Ok SqlNull
  | VStr s => Ok (SqlText s)
  | VBytes b => Ok (SqlBlob b)
  | VInt n =>
      if sqlite_int n then Ok (SqlText (decimal n)) else Raise OverflowError
  | VObject o =>
      match obj_bind o with
      | Stored x => Ok x
      | CannotEncode => Raise UnicodeEncodeError
      | NotSupported => Raise ProgrammingError
      | TooLarge => Raise OverflowError
      end
  end.

(** What a fetched column value is in Python. *)
Definition fetch_value (x : sqlvalue) : value :=
  match x with
  | SqlNull => VNone
  | SqlText s => VStr s
  | SqlBlob b => VBytes b
  end.

(** [DELETE FROM kv WHERE key=?] *)
Definition sql_delete (k : key) (t : table) : table :=
  filter (fun r => negb (String.eqb k (fst r))) t.

(** [REPLACE INTO kv (key, value) VALUES (?, ?)]: the row with this key, if
    any, is deleted and a new row is inserted. *)
Definition sql_replace (k : key) (x : sqlvalue) (t : table) : table :=
  sql_delete k t ++ [(k, x)].

(** The loop of [flush_to_sqlite]. *)
Fixpoint flush_rows (items : dict chain) (t : table) : result table :=
  match items with
  | [] => Ok t
  | (k, c) :: items' =>
      match last_item c with
      | None => Raise IndexError
      | Some (_, DELETED) => flush_rows items' (sql_delete k t)
      | Some (_, Val v) =>
          match bind_value v with
          | Raise e => Raise e
          | Ok x => flush_rows items' (sql_replace k x t)
          end
      end
  end.

(** [self._sqlite_conn.commit()]: the rows reach the file, unless the
    database is the private one of a [":memory:"] connection, which the
    store never reads back and no other connection sees. *)
Definition write_table (p : string) (t : table) (d : disk) : disk :=
  if String.eqb p memory_path then d else dict_set p t d.

(** The statements of one flush run in one SQLite transaction, committed
    by the last line: when the loop raises, nothing is committed and the
    file keeps its rows.  The statements then left pending on the
    connection touch only rows of the store's own keys, which every later
    flush writes again, and [close] drops them. *)
Definition flush_to_sqlite (s : Store) (d : disk) : disk * result unit :=
  match _sqlite_conn s with
  | None => (d, Ok tt)
  | Some p =>
      match flush_rows (_versions s) (disk_table p d) with
      | Raise e => (d, Raise e)
      | Ok t => (write_table p t d, Ok tt)
      end
  end.

Definition close (s : Store) : Store := with_conn s None.

(** The loop over [cur.execute("SELECT key, value FROM kv")]. *)
Definition load_rows (s : Store) (rows : table) : Store :=
  fold_left (fun st r => write_version st (fst r) (Val (fetch_value (snd r))))
            rows s.

(** The loop over [initial.items()]. *)
Definition seed (s : Store) (initial : dict value) : Store :=
  fold_left (fun st kv => write_version st (fst kv) (Val (snd kv))) initial s.

(** [sqlite3.connect] followed by [CREATE TABLE IF NOT EXISTS]: the file
    is created if there is none, except for [":memory:"]. *)
Definition connect (p : string) (d : disk) : disk :=
  if String.eqb p memory_path then d
  else match dict_get p d with
       | Some _ => d
       | None => dict_set p [] d
       end.

Definition __init__ (initial : option (dict value))
  (sqlite_path : option string) (d : disk) : Store * disk :=
  let s0 := mkStore [] [] [] 0 None sqlite_path in
  let loaded :=
    match sqlite_path with
    | None => (s0, d)
    | Some p =>
        if String.eqb p EmptyString then (s0, d)
        else
          let d1 := connect p d in
          (load_rows (with_conn s0 (Some p)) (disk_table p d1), d1)
    end in
  match initial with
  | None => loaded
  | Some ini => (seed (fst loaded) ini, snd loaded)
  end.

(** ** Sequences of calls *)

Inductive op : Type :=
| OSet (k : key) (v : value)
| OGet (k : key) (default : value)
| ODelete (k : key)
| OBegin
| OCommit
| ORollback
| OInTransaction
| OSnapshot
| OFlush
| OClose.

Inductive retval : Type :=
| RNone
| RValue (v : value)
| RBool (b : bool)
| RDict (d : dict value).

Definition world := (Store * disk)%type.

Definition lift_unit (r : result unit) : result retval :=
  match r with
  | Ok _ => Ok RNone
  | Raise e => Raise e
  end.

Definition step (w : world) (o : op) : world * result retval :=
  let (s, d) := w in
  match o with
  | OSet k v => ((set s k v, d), Ok RNone)
  | OGet k default =>
      match get s k default with
      | Ok v => ((s, d), Ok (RValue v))
      | Raise e => ((s, d), Raise e)
      end
  | ODelete k => ((delete s k, d), Ok RNone)
  | OBegin => ((begin s, d), Ok RNone)
  | OCommit => let (s', r) := commit s in ((s', d), lift_unit r)
  | ORollback => let (s', r) := rollback s in ((s', d), lift_unit r)
  | OInTransaction => ((s, d), Ok (RBool (in_transaction s)))
  | OSnapshot =>
      match snapshot s with
      | Ok m => ((s, d), Ok (RDict m))
      | Raise e => ((s, d), Raise e)
      end
  | OFlush => let (d', r) := flush_to_sqlite s d in ((s, d'), lift_unit r)
  | OClose => ((close s, d), Ok RNone)
  end.

(** The world after a sequence of calls; a caller that catches an exception
    goes on with the store the failed call left behind. *)
Definition exec (w : world) (ops : list op) : world :=
  fold_left (fun w' o => fst (step w' o)) ops w.

(** The outcome of each call of a sequence, in order. *)
Fixpoint outcomes (w : world) (ops : list op) : list (result retval) :=
  match ops with
  | [] => []
  | o :: ops' => snd (step w o) :: outcomes (fst (step w o)) ops'
  end.

Definition new_store : Store := fst (__init__ None None []).

(** ** Vocabulary of the properties *)

(** A chain is never empty, its timestamps increase strictly, and none is
    ahead of the clock. *)
Definition chain_ok (clock : Z) (c : chain) : Prop :=
  c <> [] /\
  StronglySorted Z.lt (map fst c) /\
  Forall (fun e => fst e <= clock) c.

(** What every store reached through the constructor and the methods
    satisfies: keys are unique, chains are in order and behind the clock,
    the two stacks have one depth, every open snapshot timestamp is the
    current clock, overlays have unique keys. *)
Record Inv (s : Store) : Prop := mkInv {
  inv_keys : NoDup (keys (_versions s));
  inv_chains : Forall (fun kc => chain_ok (_clock s) (snd kc)) (_versions s);
  inv_depth : List.length (_tx_stack s) = List.length (_snapshots s);
  inv_snaps : Forall (fun t => t = _clock s) (_snapshots s);
  inv_overlays : Forall (fun o : overlay => NoDup (keys o)) (_tx_stack s)
}.

(** A key offends a snapshot when its latest committed version is newer. *)
Definition offends (s : Store) (snap_ts : Z) (k : key) : Prop :=
  exists ts p, _latest_committed s k = Some (ts, p) /\ snap_ts < ts.

(** The state S6 is played on: a fresh store, [begin()], then
    [set("k","new")] and [set("k","tx")] through the store's own method. *)
Definition S6_calls : list op :=
  [OBegin; OSet "k"%string (VStr "new"); OSet "k"%string (VStr "tx")].

(** S6 with the concurrent write landing on the chain: after [begin()], a
    committed version of "k" is appended (what [set] does when no
    transaction is open), then the transaction writes "k" and commits. *)
Definition S6_store : Store :=
  set (write_version (begin new_store) "k"%string (Val (VStr "new")))
      "k"%string (VStr "tx").

(** The chain of a key, empty when the key has none. *)
Definition chain_of (s : Store) (k : key) : chain :=
  match dict_get k (_versions s) with
  | Some c => c
  | None => []
  end.

(** The calls a transaction may make between its [begin] and its end:
    [set], [get], [delete], the two read-only helpers, and nested
    transactions that are closed again.  [depth] counts the nested
    transactions that are open. *)
Fixpoint transaction_body (depth : nat) (ops : list op) : bool :=
  match ops with
  | [] => Nat.eqb depth 0
  | OBegin :: ops' => transaction_body (S depth) ops'
  | OCommit :: ops' | ORollback :: ops' =>
      match depth with
      | O => false
      | S depth' => transaction_body depth' ops'
      end
  | OSet _ _ :: ops' | OGet _ _ :: ops' | ODelete _ :: ops'
  | OInTransaction :: ops' | OSnapshot :: ops' => transaction_body depth ops'
  | OFlush :: _ | OClose :: _ => false
  end.


(** The keys whose latest entry is a value, with that value, in the order
    of [_versions]. *)
Definition live (items : dict chain) : dict value :=
  flat_map (fun kc => match last_item (snd kc) with
                      | Some (_, Val v) => [(fst kc, v)]
                      | _ => []
                      end) items.

(** The values that come back from the mirror as they went in: [None], a
    [str], [bytes].  An [int] comes back as a [str]; of any other object
    nothing is claimed. *)
Definition round_trips (v : value) : bool :=
  match v with
  | VNone | VStr _ | VBytes _ => true
  | VInt _ | VObject _ => false
  end.



(** The store after a call keeps its connection and all its keys. *)
Definition grows (s s' : Store) : Prop :=
  _sqlite_conn s' = _sqlite_conn s /\
  incl (keys (_versions s)) (keys (_versions s')).

(** The rows a flush writes: one per key whose latest entry is a value. *)
Definition stored_rows (items : dict chain) : table :=
  flat_map (fun kc => match last_item (snd kc) with
                      | Some (_, Val v) =>
                          match bind_value v with
                          | Ok x => [(fst kc, x)]
                          | Raise _ => []
                          end
                      | _ => []
                      end) items.

(** The rows whose key is none of [ks]. *)
Definition rows_outside (ks : list key) (t : table) : table :=
  filter (fun r => negb (existsb (String.eqb (fst r)) ks)) t.


(** The newest entry of a chain with a timestamp at or before [ts]. *)
Definition newest_at_or_before (c : chain) (ts : Z) : option version :=
  find (fun e => fst e <=? ts) (rev c).

(** The snapshot timestamp of the innermost frame. *)
Definition innermost_snapshot_ts (s : Store) : Z :=
  match last_item (_snapshots s) with
  | Some t => t
  | None => 0
  end.

(** The payload of a chain a reader sees: under the innermost snapshot
    inside a transaction, the last entry outside. *)
Definition visible_payload (s : Store) (c : chain) : option payload :=
  if in_transaction s
  then option_map snd (newest_at_or_before c (innermost_snapshot_ts s))
  else option_map snd (last_item c).

(** The resolution order of [get] as the specification words it: the
    innermost overlay that holds the key decides; otherwise the visible
    committed payload does; a tombstone or nothing gives the default, a
    value is returned as it was stored. *)
Definition get_spec (s : Store) (k : key) (default : value) : value :=
  match overlay_hit (rev (_tx_stack s)) k with
  | Some (Val v) => v
  | Some DELETED => default
  | None =>
      match visible_payload s (chain_of s k) with
      | Some (Val v) => v
      | _ => default
      end
  end.

(** The committed projection of [snapshot] as the specification words it:
    every key whose visible payload is a value, with that value. *)
Definition committed_projection (s : Store) : dict value :=
  flat_map (fun kc => match visible_payload s (snd kc) with
                      | Some (Val v) => [(fst kc, v)]
                      | _ => []
                      end) (_versions s).

(** [snapshot] as the specification words it: the committed projection,
    then every frame from outermost to innermost laid over it. *)
Definition snapshot_spec (s : Store) : dict value :=
  fold_left apply_overlay (_tx_stack s) (committed_projection s).

(** No chain of the store holds a stored [None]. *)
Definition no_stored_None (s : Store) : Prop :=
  forall k c ts, In (k, c) (_versions s) -> ~ In (ts, Val VNone) c.

(** A store with fields [vs], [stack0], [snaps0], ... on which further
    frames and their snapshot timestamps have been pushed. *)
Definition opened (vs : dict chain) (stack0 : list overlay) (snaps0 : list Z)
  (clock : Z) (conn path : option string) (dk : disk)
  (frames : list overlay) (snaps : list Z) : world :=
  (mkStore vs (stack0 ++ frames) (snaps0 ++ snaps) clock conn path, dk).

(** Every timestamp of the store, chain after chain. *)
Definition all_timestamps (vs : dict chain) : list Z :=
  flat_map (fun kc : key * chain => map fst (snd kc)) vs.

(** The integers [1], ..., [n]. *)
Definition one_to (n : Z) : list Z := map Z.of_nat (seq 1 (Z.to_nat n)).

(** The scenario S7 of the specification. *)
Definition S7_calls : list op :=
  [OSet "a"%string (VInt 10); OSet "b"%string (VInt 20); OBegin;
   OSet "c"%string (VInt 30)].

(** * Properties *)

(** ** Lists used from their end *)

Lemma pop_snoc {A : Type} (l : list A) (x : A) : pop (l ++ [x]) = Some (l, x).
Proof.
  induction l as [|y l IH]; simpl.
  - reflexivity.
  - rewrite IH. reflexivity.
Qed.

Lemma pop_Some {A : Type} (l r : list A) (x : A) :
  pop l = Some (r, x) -> l = r ++ [x].
Proof.
  revert r x. induction l as [|y l IH]; simpl; intros r x H.
  - discriminate.
  - destruct (pop l) as [[r' y']|] eqn:E.
    + inversion H; subst. rewrite (IH r' x eq_refl). reflexivity.
    + inversion H; subst. destruct l; [reflexivity|].
      simpl in E. destruct (pop l) as [[? ?]|]; discriminate.
Qed.

Lemma pop_None {A : Type} (l : list A) : pop l = None <-> l = [].
Proof.
  split.
  - destruct l as [|y l]; [reflexivity|]. simpl.
    destruct (pop l) as [[? ?]|]; discriminate.
  - intros ->. reflexivity.
Qed.

Lemma pop_cases {A : Type} (l : list A) :
  (l = [] /\ pop l = None) \/
  (exists r x, l = r ++ [x] /\ pop l = Some (r, x)).
Proof.
  destruct (pop l) as [[r x]|] eqn:E.
  - right. exists r, x. split; [apply pop_Some; exact E | reflexivity].
  - left. split; [apply pop_None; exact E | reflexivity].
Qed.

Lemma last_item_snoc {A : Type} (l : list A) (x : A) :
  last_item (l ++ [x]) = Some x.
Proof. unfold last_item. rewrite pop_snoc. reflexivity. Qed.

Lemma last_item_nil {A : Type} : last_item (@nil A) = None.
Proof. reflexivity. Qed.

Lemma last_item_In {A : Type} (l : list A) (x : A) :
  last_item l = Some x -> In x l.
Proof.
  unfold last_item. destruct (pop l) as [[r y]|] eqn:E; [|discriminate].
  intros H; inversion H; subst. apply pop_Some in E. subst.
  apply in_or_app. right. left. reflexivity.
Qed.

Lemma NoDup_snoc {A : Type} (l : list A) (x : A) :
  NoDup l -> ~ In x l -> NoDup (l ++ [x]).
Proof.
  induction l as [|y l IH]; simpl; intros ND NI.
  - constructor; [tauto | constructor].
  - inversion ND; subst. constructor.
    + rewrite in_app_iff. simpl. intros [I|[E|[]]]; [tauto|].
      apply NI. left. symmetry. exact E.
    + apply IH; [assumption | tauto].
Qed.

(** ** Dictionaries *)

Section DictFacts.
Context {V : Type}.
Implicit Types (d : dict V) (k : key) (v : V).

Lemma dict_get_set_eq d k v : dict_get k (dict_set k v d) = Some v.
Proof.
  induction d as [|[k' v'] d IH]; simpl.
  - rewrite String.eqb_refl. reflexivity.
  - destruct (String.eqb k k') eqn:E; simpl; rewrite E; auto.
Qed.

Lemma dict_get_set_neq d k k' v :
  k' <> k -> dict_get k' (dict_set k v d) = dict_get k' d.
Proof.
  intros N. induction d as [|[k0 v0] d IH]; simpl.
  - apply String.eqb_neq in N. rewrite N. reflexivity.
  - destruct (String.eqb k k0) eqn:E; simpl.
    + apply String.eqb_eq in E. subst k0.
      apply String.eqb_neq in N. rewrite N. reflexivity.
    + rewrite IH. reflexivity.
Qed.

Lemma dict_get_set d k k' v :
  dict_get k' (dict_set k v d) =
  if String.eqb k' k then Some v else dict_get k' d.
Proof.
  destruct (String.eqb_spec k' k) as [->|N].
  - apply dict_get_set_eq.
  - apply dict_get_set_neq. exact N.
Qed.

Lemma dict_get_In d k v : dict_get k d = Some v -> In (k, v) d.
Proof.
  induction d as [|[k' v'] d IH]; simpl; [discriminate|].
  destruct (String.eqb_spec k k') as [->|N].
  - intros H; inversion H; subst. left. reflexivity.
  - intros H. right. auto.
Qed.

Lemma dict_get_None d k : dict_get k d = None <-> ~ In k (keys d).
Proof.
  induction d as [|[k' v'] d IH]; simpl.
  - tauto.
  - destruct (String.eqb_spec k k') as [->|N].
    + split; [discriminate | intros H; exfalso; apply H; left; reflexivity].
    + rewrite IH. split; [intros H [E|I]; [congruence | tauto] | tauto].
Qed.

Lemma dict_get_Some_key d k v : dict_get k d = Some v -> In k (keys d).
Proof.
  intros H. apply dict_get_In in H.
  apply (in_map fst) in H. exact H.
Qed.

Lemma In_dict_get d k v :
  NoDup (keys d) -> In (k, v) d -> dict_get k d = Some v.
Proof.
  induction d as [|[k' v'] d IH]; simpl; [tauto|].
  intros ND [E|I].
  - inversion E; subst. rewrite String.eqb_refl. reflexivity.
  - inversion ND; subst. destruct (String.eqb_spec k k') as [->|N].
    + exfalso. apply H1. apply (in_map fst) in I. exact I.
    + auto.
Qed.

Lemma keys_dict_set d k v :
  keys (dict_set k v d) =
  if dict_mem k d then keys d else keys d ++ [k].
Proof.
  unfold dict_mem. induction d as [|[k' v'] d IH]; simpl.
  - reflexivity.
  - destruct (String.eqb k k') eqn:E; simpl.
    + reflexivity.
    + rewrite IH. destruct (dict_get k d); reflexivity.
Qed.

Lemma NoDup_dict_set d k v : NoDup (keys d) -> NoDup (keys (dict_set k v d)).
Proof.
  intros ND. rewrite keys_dict_set. unfold dict_mem.
  destruct (dict_get k d) eqn:E; [exact ND|].
  apply dict_get_None in E. apply NoDup_snoc; assumption.
Qed.

Lemma In_dict_set d k v k' v' :
  In (k', v') (dict_set k v d) -> (k' = k /\ v' = v) \/ In (k', v') d.
Proof.
  induction d as [|[k0 v0] d IH]; simpl.
  - intros [E|[]]. inversion E; auto.
  - destruct (String.eqb_spec k k0) as [->|N]; simpl.
    + intros [E|I]; [inversion E; auto | auto].
    + intros [E|I]; [auto | destruct (IH I); auto].
Qed.

Lemma dict_get_pop d k k' :
  NoDup (keys d) ->
  dict_get k' (dict_pop k d) =
  if String.eqb k' k then None else dict_get k' d.
Proof.
  induction d as [|[k0 v0] d IH]; simpl; intros ND.
  - destruct (String.eqb k' k); reflexivity.
  - inversion ND as [|? ? NI ND']; subst.
    destruct (String.eqb_spec k k0) as [E|N].
    + subst k0. destruct (String.eqb_spec k' k) as [E'|N'].
      * subst k'. apply dict_get_None. exact NI.
      * reflexivity.
    + simpl. destruct (String.eqb_spec k' k0) as [E'|N'].
      * subst k'. apply not_eq_sym in N. apply String.eqb_neq in N.
        rewrite N. reflexivity.
      * apply IH. exact ND'.
Qed.

Lemma keys_dict_pop_incl d k : incl (keys (dict_pop k d)) (keys d).
Proof.
  induction d as [|[k0 v0] d IH]; simpl.
  - apply incl_refl.
  - destruct (String.eqb k k0).
    + apply incl_tl, incl_refl.
    + simpl. apply incl_cons; [left; reflexivity | apply incl_tl, IH].
Qed.

Lemma NoDup_dict_pop d k : NoDup (keys d) -> NoDup (keys (dict_pop k d)).
Proof.
  induction d as [|[k0 v0] d IH]; simpl; intros ND.
  - constructor.
  - inversion ND; subst. destruct (String.eqb k k0); [exact H2|].
    simpl. constructor; [|auto].
    intros I. apply H1. apply (keys_dict_pop_incl d k). exact I.
Qed.
End DictFacts.

(** ** The invariant of reachable stores *)

Lemma StronglySorted_snoc (l : list Z) (x : Z) :
  StronglySorted Z.lt l -> Forall (fun y => y < x) l ->
  StronglySorted Z.lt (l ++ [x]).
Proof.
  induction l as [|y l IH]; simpl; intros S F.
  - constructor; constructor.
  - inversion S; subst. inversion F; subst. constructor.
    + apply IH; assumption.
    + apply Forall_app. split; [assumption|]. constructor; [assumption|constructor].
Qed.

Lemma chain_ok_mono (c : chain) (t t' : Z) :
  t <= t' -> chain_ok t c -> chain_ok t' c.
Proof.
  intros L (N & S & F). repeat split; try assumption.
  eapply Forall_impl; [|exact F]. simpl. intros; lia.
Qed.

Lemma chain_ok_single (t : Z) (p : payload) : chain_ok t [(t, p)].
Proof.
  repeat split.
  - discriminate.
  - simpl. constructor; constructor.
  - constructor; [simpl; lia | constructor].
Qed.

Lemma chain_ok_snoc (c : chain) (t : Z) (p : payload) :
  chain_ok t c -> chain_ok (t + 1) (c ++ [(t + 1, p)]).
Proof.
  intros (N & S & F). repeat split.
  - destruct c; discriminate.
  - rewrite map_app. simpl. apply StronglySorted_snoc; [exact S|].
    rewrite Forall_map. eapply Forall_impl; [|exact F]. simpl. intros; lia.
  - apply Forall_app. split.
    + eapply Forall_impl; [|exact F]. simpl. intros; lia.
    + constructor; [simpl; lia | constructor].
Qed.

Lemma setdefault_append_keys (k : key) (e : version) (vs : dict chain) :
  NoDup (keys vs) -> NoDup (keys (setdefault_append k e vs)).
Proof.
  intros ND. unfold setdefault_append.
  destruct (dict_get k vs); apply NoDup_dict_set; exact ND.
Qed.

Lemma setdefault_append_chains (k : key) (p : payload) (t : Z)
  (vs : dict chain) :
  Forall (fun kc => chain_ok t (snd kc)) vs ->
  Forall (fun kc => chain_ok (t + 1) (snd kc))
         (setdefault_append k (t + 1, p) vs).
Proof.
  intros F. rewrite Forall_forall in *. intros [k' c'] I. simpl.
  unfold setdefault_append in I.
  destruct (dict_get k vs) as [c|] eqn:E.
  - apply In_dict_set in I. destruct I as [[-> ->]|I].
    + apply chain_ok_snoc. apply dict_get_In in E. apply (F _ E).
    + apply chain_ok_mono with t; [lia|]. apply (F _ I).
  - apply In_dict_set in I. destruct I as [[-> ->]|I].
    + apply chain_ok_single.
    + apply chain_ok_mono with t; [lia|]. apply (F _ I).
Qed.

Lemma write_version_Inv (s : Store) (k : key) (p : payload) :
  Inv s -> _snapshots s = [] ->
  Inv (write_version s k p) /\ _snapshots (write_version s k p) = [] /\
  _tx_stack (write_version s k p) = _tx_stack s.
Proof.
  intros [Hk Hc Hd Hs Ho] E. split; [|split; [exact E | reflexivity]].
  constructor; simpl.
  - apply setdefault_append_keys; exact Hk.
  - apply setdefault_append_chains; exact Hc.
  - exact Hd.
  - rewrite E. constructor.
  - exact Ho.
Qed.

Lemma fold_write_Inv {A : Type} (f : A -> key) (g : A -> payload)
  (l : list A) (s : Store) :
  Inv s -> _snapshots s = [] ->
  let s' := fold_left (fun st a => write_version st (f a) (g a)) l s in
  Inv s' /\ _snapshots s' = [] /\ _tx_stack s' = _tx_stack s.
Proof.
  revert s. induction l as [|a l IH]; simpl; intros s I E.
  - auto.
  - destruct (write_version_Inv s (f a) (g a) I E) as (I' & E' & T').
    destruct (IH _ I' E') as (I2 & E2 & T2).
    split; [exact I2 | split; [exact E2 | congruence]].
Qed.

Lemma merge_NoDup (src dst : overlay) :
  NoDup (keys dst) -> NoDup (keys (_merge_overlay_into src dst)).
Proof.
  unfold _merge_overlay_into. revert dst.
  induction src as [|[k v] src IH]; simpl; intros dst ND.
  - exact ND.
  - apply IH. apply NoDup_dict_set. exact ND.
Qed.

Lemma set_payload_Inv (s : Store) (k : key) (p : payload) :
  Inv s ->
  Inv (match pop (_tx_stack s) with
       | Some (rest, top) => assign_innermost s rest top k p
       | None => write_version s k p
       end).
Proof.
  intros I. destruct (pop_cases (_tx_stack s)) as [[E ->]|(r & x & E & ->)].
  - apply write_version_Inv; [exact I|].
    destruct I as [_ _ Hd _ _]. rewrite E in Hd. simpl in Hd.
    destruct (_snapshots s); [reflexivity | discriminate].
  - destruct I as [Hk Hc Hd Hs Ho]. constructor; simpl; try assumption.
    + rewrite <- Hd, E. rewrite !length_app. reflexivity.
    + rewrite E in Ho. apply Forall_app in Ho. destruct Ho as [Ho1 Ho2].
      apply Forall_app. split; [exact Ho1|].
      inversion Ho2; subst. constructor; [|constructor].
      apply NoDup_dict_set. assumption.
Qed.

Lemma set_Inv (s : Store) (k : key) (v : value) : Inv s -> Inv (set s k v).
Proof. apply set_payload_Inv. Qed.

Lemma delete_Inv (s : Store) (k : key) : Inv s -> Inv (delete s k).
Proof. apply set_payload_Inv. Qed.

Lemma begin_Inv (s : Store) : Inv s -> Inv (begin s).
Proof.
  intros [Hk Hc Hd Hs Ho]. constructor; simpl; try assumption.
  - rewrite !length_app. simpl. lia.
  - apply Forall_app. split; [exact Hs|]. constructor; [reflexivity|constructor].
  - apply Forall_app. split; [exact Ho|]. constructor; [constructor|constructor].
Qed.

Lemma latest_le_clock (s : Store) (k : key) (ts : Z) (p : payload) :
  Inv s -> _latest_committed s k = Some (ts, p) -> ts <= _clock s.
Proof.
  intros I H. unfold _latest_committed in H.
  destruct (dict_get k (_versions s)) as [c|] eqn:E; [|discriminate].
  apply dict_get_In in E. apply last_item_In in H.
  pose proof (inv_chains s I) as F. rewrite Forall_forall in F.
  destruct (F _ E) as (_ & _ & G). rewrite Forall_forall in G.
  apply (G _ H).
Qed.

Lemma first_conflict_None (s : Store) (ks : list key) (snap_ts : Z) :
  (forall k ts p, _latest_committed s k = Some (ts, p) -> ts <= snap_ts) ->
  first_conflict s ks snap_ts = None.
Proof.
  intros H. induction ks as [|k ks IH]; simpl; [reflexivity|].
  destruct (_latest_committed s k) as [[ts p]|] eqn:E; [|exact IH].
  specialize (H _ _ _ E).
  destruct (ts >? snap_ts) eqn:G; [lia | exact IH].
Qed.

(** The shape of a store inside a transaction. *)
Lemma Inv_open (s : Store) (rest : list overlay) (top : overlay) :
  Inv s -> _tx_stack s = rest ++ [top] ->
  exists snaps, _snapshots s = snaps ++ [_clock s] /\
                List.length snaps = List.length rest /\
                Forall (fun t => t = _clock s) snaps.
Proof.
  intros I E. pose proof (inv_depth s I) as Hd. pose proof (inv_snaps s I) as Hs.
  destruct (pop_cases (_snapshots s)) as [[E' _]|(sn & x & E' & _)].
  - rewrite E, E' in Hd. rewrite length_app in Hd. simpl in Hd. lia.
  - rewrite E' in Hs. apply Forall_app in Hs. destruct Hs as [Hs1 Hs2].
    inversion Hs2; subst. exists sn. repeat split.
    + rewrite E'. congruence.
    + rewrite E, E' in Hd. rewrite !length_app in Hd. simpl in Hd. lia.
    + exact Hs1.
Qed.

Lemma commit_Inv (s : Store) : Inv s -> Inv (fst (commit s)).
Proof.
  intros I. unfold commit.
  destruct (pop_cases (_tx_stack s)) as [[E ->]|(rest & top & E & ->)];
    [exact I|].
  destruct (Inv_open s rest top I E) as (snaps & Es & Len & Fs).
  simpl. rewrite Es, pop_snoc.
  destruct I as [Hk Hc Hd Hs Ho].
  rewrite E in Ho. apply Forall_app in Ho. destruct Ho as [Ho1 Ho2].
  inversion Ho2 as [|? ? Htop _]; subst.
  destruct (pop_cases rest) as [[Er ->]|(below & parent & Er & ->)].
  - subst rest. destruct snaps; [|discriminate].
    assert (I2 : Inv (with_snapshots (with_tx_stack s []) [])).
    { constructor; simpl; auto. }
    destruct (first_conflict _ (keys top) (_clock s)); simpl; [exact I2|].
    apply (fold_write_Inv fst snd top _ I2 eq_refl).
  - simpl. subst rest. apply Forall_app in Ho1. destruct Ho1 as [Hb Hp].
    inversion Hp; subst.
    constructor; simpl; auto.
    + rewrite Len. rewrite !length_app. reflexivity.
    + apply Forall_app. split; [exact Hb|].
      constructor; [|constructor]. apply merge_NoDup. assumption.
Qed.

Lemma rollback_Inv (s : Store) : Inv s -> Inv (fst (rollback s)).
Proof.
  intros I. unfold rollback.
  destruct (pop_cases (_tx_stack s)) as [[E ->]|(rest & top & E & ->)];
    [exact I|].
  destruct (Inv_open s rest top I E) as (snaps & Es & Len & Fs).
  simpl. rewrite Es, pop_snoc. simpl.
  destruct I as [Hk Hc Hd Hs Ho].
  rewrite E in Ho. apply Forall_app in Ho. destruct Ho as [Ho1 _].
  constructor; simpl; auto.
Qed.

Lemma init_Inv (initial : option (dict value)) (sqlite_path : option string)
  (d : disk) : Inv (fst (__init__ initial sqlite_path d)).
Proof.
  assert (I0 : forall c p, Inv (mkStore [] [] [] 0 c p)).
  { intros. constructor; simpl; constructor. }
  assert (L : Inv (fst (match sqlite_path with
            | None => (mkStore [] [] [] 0 None sqlite_path, d)
            | Some p =>
                if String.eqb p EmptyString
                then (mkStore [] [] [] 0 None sqlite_path, d)
                else (load_rows (with_conn (mkStore [] [] [] 0 None sqlite_path)
                                           (Some p))
                                (disk_table p (connect p d)), connect p d)
            end)) /\
          _snapshots (fst (match sqlite_path with
            | None => (mkStore [] [] [] 0 None sqlite_path, d)
            | Some p =>
                if String.eqb p EmptyString
                then (mkStore [] [] [] 0 None sqlite_path, d)
                else (load_rows (with_conn (mkStore [] [] [] 0 None sqlite_path)
                                           (Some p))
                                (disk_table p (connect p d)), connect p d)
            end)) = []).
  { destruct sqlite_path as [p|]; [|split; [apply I0 | reflexivity]].
    destruct (String.eqb p EmptyString); [split; [apply I0 | reflexivity]|].
    simpl. unfold load_rows.
    destruct (fold_write_Inv fst (fun r => Val (fetch_value (snd r)))
                (disk_table p (connect p d))
                (with_conn (mkStore [] [] [] 0 None (Some p)) (Some p)))
      as (I & E & _); [apply I0 | reflexivity | auto]. }
  unfold __init__. destruct L as [I E].
  destruct initial as [ini|]; [|exact I].
  simpl. unfold seed.
  apply (fold_write_Inv fst (fun kv => Val (snd kv)) ini _ I E).
Qed.

Lemma step_Inv (w : world) (o : op) : Inv (fst w) -> Inv (fst (fst (step w o))).
Proof.
  destruct w as [s d]. simpl. intros I. destruct o; simpl; try exact I.
  - apply set_Inv; exact I.
  - destruct (get s k default); exact I.
  - apply delete_Inv; exact I.
  - apply begin_Inv; exact I.
  - pose proof (commit_Inv s I). destruct (commit s). assumption.
  - pose proof (rollback_Inv s I). destruct (rollback s). assumption.
  - destruct (snapshot s); exact I.
  - destruct (flush_to_sqlite s d). exact I.
  - destruct I as [Hk Hc Hd Hs Ho]. constructor; assumption.
Qed.

Lemma exec_Inv (ops : list op) (w : world) :
  Inv (fst w) -> Inv (fst (exec w ops)).
Proof.
  revert w. induction ops as [|o ops IH]; simpl; intros w I.
  - exact I.
  - apply IH. apply step_Inv. exact I.
Qed.

Lemma reachable_Inv (initial : option (dict value))
  (sqlite_path : option string) (d : disk) (ops : list op) :
  Inv (fst (exec (__init__ initial sqlite_path d) ops)).
Proof. apply exec_Inv, init_Inv. Qed.

(** ** What commit computes *)

Lemma commit_empty (s : Store) :
  _tx_stack s = [] -> commit s = (s, Raise NoActiveTransaction).
Proof. intros E. unfold commit. rewrite E. reflexivity. Qed.

Lemma commit_nested (s : Store) (below : list overlay) (parent top : overlay)
  (snaps : list Z) (snap_ts : Z) :
  _tx_stack s = (below ++ [parent]) ++ [top] ->
  _snapshots s = snaps ++ [snap_ts] ->
  commit s =
  (mkStore (_versions s) (below ++ [_merge_overlay_into top parent]) snaps
           (_clock s) (_sqlite_conn s) (_sqlite_path s), Ok tt).
Proof.
  intros E Es. unfold commit. rewrite E, pop_snoc. simpl.
  rewrite Es, !pop_snoc. reflexivity.
Qed.

Lemma commit_outer (s : Store) (top : overlay) (snaps : list Z) (snap_ts : Z) :
  _tx_stack s = [top] ->
  _snapshots s = snaps ++ [snap_ts] ->
  let s2 := mkStore (_versions s) [] snaps (_clock s)
                    (_sqlite_conn s) (_sqlite_path s) in
  commit s =
  match first_conflict s2 (keys top) snap_ts with
  | Some k => (s2, Raise (WriteConflict k))
  | None => (write_all s2 top, Ok tt)
  end.
Proof.
  intros E Es. unfold commit. rewrite E. simpl.
  rewrite Es, pop_snoc. reflexivity.
Qed.

Lemma first_conflict_versions (s s' : Store) (ks : list key) (t : Z) :
  _versions s = _versions s' ->
  first_conflict s ks t = first_conflict s' ks t.
Proof.
  intros E. induction ks as [|k ks IH]; simpl; [reflexivity|].
  unfold _latest_committed. rewrite E, IH. reflexivity.
Qed.

Lemma first_conflict_Some (s : Store) (ks : list key) (t : Z) (k : key) :
  first_conflict s ks t = Some k <->
  exists ks1 ks2, ks = ks1 ++ k :: ks2 /\ offends s t k /\
                  forall k', In k' ks1 -> ~ offends s t k'.
Proof.
  revert k. induction ks as [|k0 ks IH]; intros k; simpl.
  - split; [discriminate|]. intros (ks1 & ks2 & E & _).
    destruct ks1; discriminate.
  - destruct (_latest_committed s k0) as [[ts p]|] eqn:L.
    + destruct (ts >? t) eqn:G.
      * split.
        -- intros H; inversion H; subst. exists [], ks. repeat split.
           ++ exists ts, p. split; [exact L | lia].
           ++ intros k' [].
        -- intros (ks1 & ks2 & E & O & F). destruct ks1 as [|k1 ks1].
           ++ simpl in E. inversion E; subst. reflexivity.
           ++ simpl in E. inversion E; subst. exfalso.
              apply (F k1); [left; reflexivity|].
              exists ts, p. split; [exact L | lia].
      * rewrite IH. split.
        -- intros (ks1 & ks2 & E & O & F). exists (k0 :: ks1), ks2.
           repeat split; [simpl; congruence | exact O |].
           intros k' [<-|I]; [|auto].
           intros (ts' & p' & L' & G'). rewrite L in L'. inversion L'; subst.
           lia.
        -- intros (ks1 & ks2 & E & O & F). destruct ks1 as [|k1 ks1].
           ++ simpl in E. inversion E; subst. exfalso.
              destruct O as (ts' & p' & L' & G'). rewrite L in L'.
              inversion L'; subst. lia.
           ++ simpl in E. inversion E; subst. exists ks1, ks2.
              repeat split; [exact O|]. intros k' I. apply F. right. exact I.
    + rewrite IH. split.
      * intros (ks1 & ks2 & E & O & F). exists (k0 :: ks1), ks2.
        repeat split; [simpl; congruence | exact O |].
        intros k' [<-|I]; [|auto].
        intros (ts' & p' & L' & G'). rewrite L in L'. discriminate.
      * intros (ks1 & ks2 & E & O & F). destruct ks1 as [|k1 ks1].
        -- simpl in E. inversion E; subst. exfalso.
           destruct O as (ts' & p' & L' & G'). rewrite L in L'. discriminate.
        -- simpl in E. inversion E; subst. exists ks1, ks2.
           repeat split; [exact O|]. intros k' I. apply F. right. exact I.
Qed.

Lemma first_conflict_exists (s : Store) (ks : list key) (t : Z) (k : key) :
  In k ks -> offends s t k -> exists k', first_conflict s ks t = Some k'.
Proof.
  intros I O. destruct (first_conflict s ks t) as [k'|] eqn:E;
    [exists k'; reflexivity|].
  exfalso. induction ks as [|k0 ks IH]; [destruct I|].
  simpl in E. destruct O as (ts & p & L & G).
  destruct I as [->|I].
  - rewrite L in E. destruct (ts >? t) eqn:G'; [discriminate | lia].
  - apply IH; [exact I|].
    destruct (_latest_committed s k0) as [[ts0 p0]|]; [|exact E].
    destruct (ts0 >? t); [discriminate | exact E].
Qed.

Lemma commit_on_reachable (s : Store) (top : overlay) :
  Inv s -> _tx_stack s = [top] ->
  commit s =
  (write_all (mkStore (_versions s) [] [] (_clock s)
                      (_sqlite_conn s) (_sqlite_path s)) top, Ok tt).
Proof.
  intros I E. destruct (Inv_open s [] top I E) as (snaps & Es & Len & _).
  destruct snaps; [|discriminate]. simpl in Es.
  rewrite (commit_outer s top [] (_clock s) E Es).
  rewrite (first_conflict_versions _ s) by reflexivity.
  rewrite first_conflict_None; [reflexivity|].
  intros k ts p. apply latest_le_clock. exact I.
Qed.

Lemma commit_not_conflict (s : Store) (k : key) :
  Inv s -> snd (commit s) <> Raise (WriteConflict k).
Proof.
  intros I. destruct (pop_cases (_tx_stack s)) as [[E _]|(rest & top & E & _)].
  - rewrite (commit_empty s E). simpl. discriminate.
  - destruct (Inv_open s rest top I E) as (snaps & Es & Len & _).
    destruct (pop_cases rest) as [[Er _]|(below & parent & Er & _)].
    + subst rest. rewrite (commit_on_reachable s top I E). simpl. discriminate.
    + subst rest. rewrite (commit_nested s _ _ _ _ _ E Es). simpl. discriminate.
Qed.

(** ** Which exceptions a call can raise *)

Lemma get_raises (s : Store) (k : key) (d : value) (e : exn) :
  get s k d = Raise e -> e = IndexError.
Proof.
  unfold get. destruct (overlay_hit _ k) as [[v|]|]; try discriminate.
  destruct (_tx_stack s).
  - destruct (_latest_committed s k) as [[? [?|]]|]; discriminate.
  - destruct (last_item (_snapshots s)); [|congruence].
    destruct (_committed_at_or_before s k z); discriminate.
Qed.

Lemma project_latest_raises (items : dict chain) (res : dict value) (e : exn) :
  project_latest items res = Raise e -> e = IndexError.
Proof.
  revert res. induction items as [|[k c] items IH]; simpl; intros res.
  - discriminate.
  - destruct (last_item c) as [[? [?|]]|]; [apply IH | apply IH | congruence].
Qed.

Lemma snapshot_raises (s : Store) (e : exn) :
  snapshot s = Raise e -> e = IndexError.
Proof.
  unfold snapshot. destruct (_tx_stack s).
  - destruct (project_latest (_versions s) []) eqn:E; [discriminate|].
    intros H; inversion H; subst. eapply project_latest_raises; eassumption.
  - destruct (last_item (_snapshots s)); [discriminate | congruence].
Qed.

Lemma bind_value_raises (v : value) (e : exn) :
  bind_value v = Raise e ->
  e = OverflowError \/ e = UnicodeEncodeError \/ e = ProgrammingError.
Proof.
  destruct v as [|n|str|b|o]; simpl; try discriminate.
  - destruct (sqlite_int n); [discriminate|]. intros H; inversion H. auto.
  - destruct (obj_bind o); try discriminate; intros H; inversion H; auto.
Qed.

Lemma flush_rows_raises (items : dict chain) (t : table) (e : exn) :
  flush_rows items t = Raise e ->
  e = IndexError \/
  exists k c ts v, In (k, c) items /\ last_item c = Some (ts, Val v) /\
                   bind_value v = Raise e.
Proof.
  revert t. induction items as [|[k c] items IH]; cbn [flush_rows]; intros t.
  - discriminate.
  - destruct (last_item c) as [[ts [v|]]|] eqn:L.
    + destruct (bind_value v) as [x|e'] eqn:B.
      * intros H. destruct (IH _ H) as [E|(k' & c' & ts' & v' & I & L' & B')];
          [left; exact E|].
        right. exists k', c', ts', v'. split; [right; exact I | split; assumption].
      * intros H. inversion H; subst. right. exists k, c, ts, v.
        split; [left; reflexivity | split; assumption].
    + intros H. destruct (IH _ H) as [E|(k' & c' & ts' & v' & I & L' & B')];
        [left; exact E|].
      right. exists k', c', ts', v'. split; [right; exact I | split; assumption].
    + intros H. inversion H. left. reflexivity.
Qed.

(** ** Calls on a reachable store return *)




(** ** Claims *)

Lemma step_not_conflict (w : world) (o : op) (k : key) :
  Inv (fst w) -> snd (step w o) <> Raise (WriteConflict k).
Proof.
  destruct w as [s d]. simpl. intros I. destruct o; simpl; try discriminate.
  - destruct (get s k0 default) eqn:E; simpl; [discriminate|].
    apply get_raises in E. subst. discriminate.
  - pose proof (commit_not_conflict s k I) as H.
    destruct (commit s) as [s' [[]|e]]; simpl in *; [discriminate | congruence].
  - destruct (pop_cases (_tx_stack s)) as [[E _]|(rest & top & E & _)].
    + unfold rollback. rewrite E. simpl. discriminate.
    + destruct (Inv_open s rest top I E) as (snaps & Es & _).
      unfold rollback. rewrite E, pop_snoc. simpl. rewrite Es, pop_snoc.
      simpl. discriminate.
  - destruct (snapshot s) eqn:E; simpl; [discriminate|].
    apply snapshot_raises in E. subst. discriminate.
  - unfold flush_to_sqlite. destruct (_sqlite_conn s); [|simpl; discriminate].
    destruct (flush_rows _ _) eqn:E; simpl; [discriminate|].
    apply flush_rows_raises in E.
    destruct E as [->|(k' & c' & ts' & v' & _ & _ & B)]; [discriminate|].
    apply bind_value_raises in B. destruct B as [->|[->| ->]]; discriminate.
Qed.

(** C2.  On a single store driven only through its methods, whatever the
    constructor arguments and whatever the sequence of calls, no call ever
    raises WriteConflict: in every store so reached, every committed
    timestamp is at most every open snapshot timestamp (versions are
    appended only while no transaction is open), so the validation loop of
    an outermost commit finds no offending key. *)
Theorem commit_never_raises_WriteConflict :
  forall (initial : option (dict value)) (sqlite_path : option string)
         (d : disk) (ops : list op) (k : key),
    ~ In (Raise (WriteConflict k))
         (outcomes (__init__ initial sqlite_path d) ops) /\
    (let s := fst (exec (__init__ initial sqlite_path d) ops) in
     snd (commit s) <> Raise (WriteConflict k) /\
     forall snap_ts ts p,
       In snap_ts (_snapshots s) ->
       _latest_committed s k = Some (ts, p) -> ts <= snap_ts).
Proof.
  intros initial sqlite_path d ops k. split.
  - generalize (init_Inv initial sqlite_path d).
    generalize (__init__ initial sqlite_path d). intros w.
    revert w. induction ops as [|o ops IH]; simpl; intros w I.
    + tauto.
    + intros [H|H].
      * apply (step_not_conflict w o k I). exact H.
      * apply (IH (fst (step w o))); [apply step_Inv; exact I | exact H].
  - simpl. pose proof (reachable_Inv initial sqlite_path d ops) as I.
    split; [apply commit_not_conflict; exact I|].
    intros snap_ts ts p Hin L.
    pose proof (inv_snaps _ I) as F. rewrite Forall_forall in F.
    rewrite (F _ Hin). eapply latest_le_clock; eassumption.
Qed.

(** C8.  [commit] and [rollback] raise NoActiveTransaction exactly when the
    transaction stack is empty, and a call that raises it leaves the whole
    store (chains, clock, stack, snapshots) as it was. *)
Theorem no_active_transaction_iff_empty_stack :
  forall s : Store,
    (snd (commit s) = Raise NoActiveTransaction <-> _tx_stack s = []) /\
    (snd (rollback s) = Raise NoActiveTransaction <-> _tx_stack s = []) /\
    (snd (commit s) = Raise NoActiveTransaction -> fst (commit s) = s) /\
    (snd (rollback s) = Raise NoActiveTransaction -> fst (rollback s) = s).
Proof.
  intros s.
  assert (C : snd (commit s) = Raise NoActiveTransaction <-> _tx_stack s = []).
  { split.
    - unfold commit.
      destruct (pop_cases (_tx_stack s)) as [[E _]|(rest & top & E & ->)];
        [intros _; exact E|].
      simpl. destruct (pop (_snapshots s)) as [[snaps snap]|];
        [|simpl; discriminate].
      destruct (pop rest) as [[below parent]|]; [simpl; discriminate|].
      destruct (first_conflict _ _ _); simpl; discriminate.
    - intros E. rewrite (commit_empty s E). reflexivity. }
  assert (R : snd (rollback s) = Raise NoActiveTransaction <-> _tx_stack s = []).
  { split.
    - unfold rollback.
      destruct (pop_cases (_tx_stack s)) as [[E _]|(rest & top & E & ->)];
        [intros _; exact E|].
      simpl. destruct (pop (_snapshots s)) as [[snaps snap]|];
        simpl; discriminate.
    - intros E. unfold rollback. rewrite E. reflexivity. }
  split; [exact C | split; [exact R | split]].
  - intros H. apply C in H. rewrite (commit_empty s H). reflexivity.
  - intros H. apply R in H. unfold rollback. rewrite H. reflexivity.
Qed.

Lemma get_assign_other (s : Store) (rest : list overlay) (top : overlay)
  (k k' : key) (p : payload) (d : value) :
  _tx_stack s = rest ++ [top] -> k <> k' ->
  get (assign_innermost s rest top k' p) k d = get s k d.
Proof.
  intros E N. unfold get.
  cbn [assign_innermost with_tx_stack _tx_stack _snapshots].
  rewrite E, !rev_app_distr. cbn [rev app overlay_hit].
  rewrite dict_get_set_neq by exact N.
  destruct (dict_get k top); [reflexivity|].
  destruct (overlay_hit (rev rest) k); [reflexivity|].
  destruct rest; reflexivity.
Qed.

(** C9.  [get] changes no component of the store, so a second call with the
    same key and default returns what the first returned.  Inside a
    transaction the same holds across the transaction's writes to other
    keys: a key it has not overwritten keeps reading the same. *)
Theorem get_changes_nothing :
  forall (w : world) (k : key) (d : value),
    fst (step w (OGet k d)) = w /\
    snd (step (fst (step w (OGet k d))) (OGet k d)) = snd (step w (OGet k d)) /\
    outcomes w [OGet k d; OGet k d] =
      [snd (step w (OGet k d)); snd (step w (OGet k d))] /\
    (forall k' v, in_transaction (fst w) = true -> k <> k' ->
                  get (set (fst w) k' v) k d = get (fst w) k d /\
                  get (delete (fst w) k') k d = get (fst w) k d).
Proof.
  intros [s dk] k d.
  assert (E : fst (step (s, dk) (OGet k d)) = (s, dk)).
  { simpl. destruct (get s k d); reflexivity. }
  split; [exact E|]. split; [|split].
  - rewrite E. reflexivity.
  - cbn [outcomes]. rewrite E. reflexivity.
  - cbn [fst]. intros k' v T N.
    destruct (pop_cases (_tx_stack s)) as [[Es _]|(rest & top & Es & P)].
    + unfold in_transaction in T. rewrite Es in T. discriminate.
    + unfold set, delete. rewrite P.
      split; apply get_assign_other; assumption.
Qed.

(** *** The write-conflict rule *)

(** C1, as stated, fails: a [set] issued on the same engine while the
    transaction is open lands in the overlay and leaves the clock at the
    snapshot timestamp, so the commit that follows succeeds. *)
Lemma S6_through_set_commits :
  let w := exec (new_store, []) S6_calls in
  _clock (fst w) = 0 /\
  _snapshots (fst w) = [0] /\
  _versions (fst w) = [] /\
  snd (step w OCommit) = Ok RNone /\
  snd (step w OCommit) <> Raise (WriteConflict "k"%string).
Proof.
  simpl. repeat split; discriminate.
Qed.

(** C1, amended.  An outermost commit (one frame on the stack) raises
    WriteConflict whenever some key of the popped overlay has a latest
    committed entry newer than the popped snapshot timestamp; the key named
    is the first such key in the overlay's order; the chains and the clock
    are untouched and the overlay is gone. *)
Theorem outer_commit_conflict_rule :
  forall (s : Store) (top : overlay) (snaps : list Z) (snap_ts : Z) (k : key),
    _tx_stack s = [top] ->
    _snapshots s = snaps ++ [snap_ts] ->
    In k (keys top) ->
    offends s snap_ts k ->
    exists k',
      commit s =
        (mkStore (_versions s) [] snaps (_clock s)
                 (_sqlite_conn s) (_sqlite_path s),
         Raise (WriteConflict k')) /\
      exists ks1 ks2,
        keys top = ks1 ++ k' :: ks2 /\
        offends s snap_ts k' /\
        forall k'', In k'' ks1 -> ~ offends s snap_ts k''.
Proof.
  intros s top snaps snap_ts k E Es I O.
  rewrite (commit_outer s top snaps snap_ts E Es).
  rewrite (first_conflict_versions _ s) by reflexivity.
  destruct (first_conflict_exists s (keys top) snap_ts k I O) as (k' & F).
  rewrite F. exists k'. split; [reflexivity|].
  apply first_conflict_Some in F. exact F.
Qed.

Lemma outer_commit_conflict_rule_witness :
  exists k', commit S6_store =
             (mkStore [("k"%string, [(1, Val (VStr "new"))])] [] [] 1 None None,
              Raise (WriteConflict k')) /\
             k' = "k"%string.
Proof.
  destruct (outer_commit_conflict_rule S6_store
              [("k"%string, Val (VStr "tx"))] [] 0 "k"%string
              eq_refl eq_refl (or_introl eq_refl))
    as (k' & C & ks1 & ks2 & K & _ & _).
  - exists 1, (Val (VStr "new")). split; [reflexivity | lia].
  - exists k'. split; [exact C|].
    destruct ks1 as [|a ks1]; simpl in K.
    + inversion K. reflexivity.
    + inversion K. destruct ks1; discriminate.
Defined.

(** *** Timestamps and the clock *)

Lemma fold_write_clock {A : Type} (f : A -> key) (g : A -> payload)
  (l : list A) (s : Store) :
  _clock (fold_left (fun st a => write_version st (f a) (g a)) l s) =
  _clock s + Z.of_nat (List.length l).
Proof.
  revert s. induction l as [|a l IH]; intros s.
  - simpl. lia.
  - cbn [fold_left List.length]. rewrite IH. simpl _clock. lia.
Qed.

Lemma set_payload_clock (s : Store) (k : key) (p : payload) :
  _clock s <=
  _clock (match pop (_tx_stack s) with
          | Some (rest, top) => assign_innermost s rest top k p
          | None => write_version s k p
          end).
Proof. destruct (pop (_tx_stack s)) as [[? ?]|]; simpl; lia. Qed.

Lemma commit_clock (s : Store) : _clock s <= _clock (fst (commit s)).
Proof.
  unfold commit. destruct (pop (_tx_stack s)) as [[rest top]|]; simpl; [|lia].
  destruct (pop (_snapshots s)) as [[snaps snap]|]; simpl; [|lia].
  destruct (pop rest) as [[below parent]|]; simpl; [lia|].
  destruct (first_conflict _ _ _); simpl; [lia|].
  unfold write_all. rewrite fold_write_clock. simpl. lia.
Qed.

Lemma rollback_clock (s : Store) : _clock (fst (rollback s)) = _clock s.
Proof.
  unfold rollback. destruct (pop (_tx_stack s)) as [[rest top]|]; simpl; auto.
  destruct (pop (_snapshots s)) as [[snaps snap]|]; reflexivity.
Qed.

Lemma step_clock (w : world) (o : op) :
  _clock (fst w) <= _clock (fst (fst (step w o))).
Proof.
  destruct w as [s d]. destruct o; simpl; try lia.
  - apply set_payload_clock.
  - destruct (get s k default); simpl; lia.
  - apply set_payload_clock.
  - pose proof (commit_clock s). destruct (commit s). assumption.
  - pose proof (rollback_clock s). destruct (rollback s). simpl in *. lia.
  - destruct (snapshot s); simpl; lia.
  - destruct (flush_to_sqlite s d); simpl; lia.
Qed.

Lemma exec_clock (ops : list op) (w : world) :
  _clock (fst w) <= _clock (fst (exec w ops)).
Proof.
  revert w. induction ops as [|o ops IH]; simpl; intros w.
  - lia.
  - pose proof (step_clock w o). pose proof (IH (fst (step w o))). lia.
Qed.

Lemma init_clock (initial : option (dict value)) (sqlite_path : option string)
  (d : disk) : 0 <= _clock (fst (__init__ initial sqlite_path d)).
Proof.
  unfold __init__.
  assert (L : 0 <= _clock (fst (match sqlite_path with
            | None => (mkStore [] [] [] 0 None sqlite_path, d)
            | Some p =>
                if String.eqb p EmptyString
                then (mkStore [] [] [] 0 None sqlite_path, d)
                else (load_rows (with_conn (mkStore [] [] [] 0 None sqlite_path)
                                           (Some p))
                                (disk_table p (connect p d)), connect p d)
            end))).
  { destruct sqlite_path as [p|]; simpl; [|lia].
    destruct (String.eqb p EmptyString); simpl; [lia|].
    unfold load_rows. rewrite fold_write_clock. simpl. lia. }
  destruct initial as [ini|]; [|exact L].
  simpl. unfold seed. rewrite fold_write_clock. lia.
Qed.

(** C5.  In every store reached from the constructor (with any mirror
    contents and seed data) by any sequence of calls, the timestamps along
    every version chain increase strictly, and no call, nor the constructor,
    moves the clock backwards. *)
Theorem chains_increase_clock_never_decreases :
  forall (initial : option (dict value)) (sqlite_path : option string)
         (d : disk) (ops : list op),
    let w0 := __init__ initial sqlite_path d in
    let w := exec w0 ops in
    (forall k c, dict_get k (_versions (fst w)) = Some c ->
                 StronglySorted Z.lt (map fst c)) /\
    (forall o, _clock (fst w) <= _clock (fst (fst (step w o)))) /\
    0 <= _clock (fst w0) /\
    _clock (fst w0) <= _clock (fst w).
Proof.
  intros initial sqlite_path d ops w0 w. repeat split.
  - intros k c E. apply dict_get_In in E.
    pose proof (inv_chains _ (reachable_Inv initial sqlite_path d ops)) as F.
    rewrite Forall_forall in F. destruct (F _ E) as (_ & S & _). exact S.
  - intros o. apply step_clock.
  - apply init_clock.
  - apply exec_clock.
Qed.

(** *** Commit: merge upward or append *)

Lemma setdefault_append_get (k k' : key) (e : version) (vs : dict chain) :
  dict_get k' (setdefault_append k e vs) =
  if String.eqb k' k
  then Some (match dict_get k vs with Some c => c | None => [] end ++ [e])
  else dict_get k' vs.
Proof.
  unfold setdefault_append.
  destruct (dict_get k vs) as [c|]; rewrite dict_get_set; reflexivity.
Qed.

Lemma write_all_other (top : overlay) (s : Store) (k : key) :
  ~ In k (keys top) ->
  dict_get k (_versions (write_all s top)) = dict_get k (_versions s).
Proof.
  unfold write_all. revert s.
  induction top as [|[k0 p0] top IH]; simpl; intros s NI; [reflexivity|].
  rewrite IH by tauto. simpl. rewrite setdefault_append_get.
  destruct (String.eqb_spec k k0) as [E|N]; [|reflexivity].
  exfalso. apply NI. left. symmetry. exact E.
Qed.

Lemma write_all_chain (top : overlay) :
  NoDup (keys top) ->
  forall (s : Store) (i : nat) (k : key) (p : payload),
    nth_error top i = Some (k, p) ->
    dict_get k (_versions (write_all s top)) =
    Some (chain_of s k ++ [(_clock s + 1 + Z.of_nat i, p)]).
Proof.
  induction top as [|[k0 p0] top IH]; intros ND s i k p H.
  - destruct i; discriminate.
  - simpl in ND. inversion ND as [|? ? NI ND']; subst.
    destruct i as [|j]; simpl in H.
    + inversion H; subst. unfold write_all. simpl.
      fold (write_all (write_version s k p) top).
      rewrite write_all_other by exact NI. simpl.
      rewrite setdefault_append_get, String.eqb_refl.
      unfold chain_of. rewrite Z.add_0_r. reflexivity.
    + unfold write_all. cbn [fold_left fst snd].
      fold (write_all (write_version s k0 p0) top).
      rewrite (IH ND' _ j k p H).
      assert (N : k <> k0).
      { intros ->. apply NI. apply nth_error_In in H.
        apply (in_map fst) in H. exact H. }
      unfold chain_of, write_version. cbn [_versions _clock with_versions].
      rewrite setdefault_append_get.
      apply String.eqb_neq in N. rewrite N.
      replace (_clock s + 1 + 1 + Z.of_nat j)
        with (_clock s + 1 + Z.of_nat (S j)) by lia.
      reflexivity.
Qed.

Lemma merge_get (src : overlay) :
  NoDup (keys src) ->
  forall (dst : overlay) (k : key),
    dict_get k (_merge_overlay_into src dst) =
    match dict_get k src with
    | Some p => Some p
    | None => dict_get k dst
    end.
Proof.
  unfold _merge_overlay_into.
  induction src as [|[k0 p0] src IH]; simpl; intros ND dst k; [reflexivity|].
  inversion ND as [|? ? NI ND']; subst. rewrite (IH ND').
  destruct (String.eqb_spec k k0) as [E|N].
  - subst k0. apply dict_get_None in NI. rewrite NI.
    apply dict_get_set_eq.
  - destruct (dict_get k src); [reflexivity|].
    apply dict_get_set_neq. exact N.
Qed.

(** C4.  On a reachable store with a non-empty stack, [commit] pops the
    top frame and its snapshot timestamp.  With a frame left below, the
    popped overlay is merged into it, the popped entries winning, values and
    tombstones alike, and nothing else changes (no validation, no append).
    With no frame left, the commit returns normally and the [i]-th pair
    [(k, p)] of the popped overlay is appended to the chain of [k] with
    timestamp [clock + 1 + i]: one tick of the clock per entry, the
    timestamps distinct and increasing; other chains are untouched. *)
Theorem commit_merges_or_appends :
  forall (initial : option (dict value)) (sqlite_path : option string)
         (d : disk) (ops : list op) (rest : list overlay) (top : overlay),
    let s := fst (exec (__init__ initial sqlite_path d) ops) in
    _tx_stack s = rest ++ [top] ->
    exists snaps,
      _snapshots s = snaps ++ [_clock s] /\
      (forall below parent,
         rest = below ++ [parent] ->
         commit s =
           (mkStore (_versions s)
                    (below ++ [_merge_overlay_into top parent]) snaps
                    (_clock s) (_sqlite_conn s) (_sqlite_path s), Ok tt) /\
         forall k,
           dict_get k (_merge_overlay_into top parent) =
           match dict_get k top with
           | Some p => Some p
           | None => dict_get k parent
           end) /\
      (rest = [] ->
       exists s',
         commit s = (s', Ok tt) /\
         _tx_stack s' = [] /\ _snapshots s' = [] /\
         _clock s' = _clock s + Z.of_nat (List.length top) /\
         (forall i k p,
            nth_error top i = Some (k, p) ->
            dict_get k (_versions s') =
            Some (chain_of s k ++ [(_clock s + 1 + Z.of_nat i, p)])) /\
         (forall k, ~ In k (keys top) ->
                    dict_get k (_versions s') = dict_get k (_versions s))).
Proof.
  intros initial sqlite_path d ops rest top s E.
  pose proof (reachable_Inv initial sqlite_path d ops) as I. fold s in I.
  destruct (Inv_open s rest top I E) as (snaps & Es & Len & _).
  assert (NDtop : NoDup (keys top)).
  { pose proof (inv_overlays s I) as Ho. rewrite E in Ho.
    apply Forall_app in Ho. destruct Ho as [_ Ho]. inversion Ho; assumption. }
  exists snaps. split; [exact Es|]. split.
  - intros below parent ->. split.
    + apply (commit_nested s below parent top snaps (_clock s) E Es).
    + intros k. apply merge_get. exact NDtop.
  - intros ->. simpl in E.
    exists (write_all (mkStore (_versions s) [] [] (_clock s)
                               (_sqlite_conn s) (_sqlite_path s)) top).
    split; [apply commit_on_reachable; assumption|].
    destruct (fold_write_Inv fst snd top
                (mkStore (_versions s) [] [] (_clock s)
                         (_sqlite_conn s) (_sqlite_path s)))
      as (_ & Sn & St).
    { destruct I as [Hk Hc Hd Hs Ho]. constructor; simpl; auto. }
    { reflexivity. }
    repeat split.
    + exact St.
    + exact Sn.
    + unfold write_all. rewrite fold_write_clock. reflexivity.
    + intros i k p H.
      rewrite (write_all_chain top NDtop _ i k p H). reflexivity.
    + intros k NI. rewrite write_all_other by exact NI. reflexivity.
Qed.

Lemma commit_merges_or_appends_witness :
  exists s',
    commit (fst (exec (new_store, [])
                      [OBegin; OSet "a"%string (VInt 1); ODelete "b"%string]))
    = (s', Ok tt) /\
    _clock s' = 2 /\
    dict_get "a"%string (_versions s') = Some [(1, Val (VInt 1))] /\
    dict_get "b"%string (_versions s') = Some [(2, DELETED)].
Proof.
  destruct (commit_merges_or_appends None None []
              [OBegin; OSet "a"%string (VInt 1); ODelete "b"%string]
              [] [("a"%string, Val (VInt 1)); ("b"%string, DELETED)] eq_refl)
    as (snaps & _ & _ & H).
  destruct (H eq_refl) as (s' & C & _ & _ & K & Ch & _).
  exists s'. split; [exact C|]. split; [exact K|]. split.
  - exact (Ch 0%nat "a"%string (Val (VInt 1)) eq_refl).
  - exact (Ch 1%nat "b"%string DELETED eq_refl).
Defined.

(** *** Rollback *)

Lemma length_snoc_inv {A : Type} (l : list A) (n : nat) :
  List.length l = S n -> exists r x, l = r ++ [x] /\ List.length r = n.
Proof.
  intros H. destruct (pop_cases l) as [[E _]|(r & x & E & _)].
  - subst l. discriminate.
  - exists r, x. split; [exact E|]. subst l.
    rewrite length_app in H. simpl in H. lia.
Qed.

Section Rollback.
Variables (vs : dict chain) (stack0 : list overlay) (snaps0 : list Z)
          (clock : Z) (conn path : option string) (dk : disk).

Local Abbreviation frames_on := (opened vs stack0 snaps0 clock conn path dk).

Lemma transaction_body_frames (ops : list op) :
  forall (depth : nat) (frames : list overlay) (snaps : list Z),
    List.length frames = S depth -> List.length snaps = S depth ->
    transaction_body depth ops = true ->
    exists frame snap, exec (frames_on frames snaps) ops = frames_on [frame] [snap].
Proof.
  induction ops as [|o ops IH]; intros depth frames snaps Lf Ls B.
  - simpl in B. apply Nat.eqb_eq in B. subst depth.
    destruct frames as [|f [|? ?]]; try discriminate.
    destruct snaps as [|t [|? ?]]; try discriminate.
    exists f, t. reflexivity.
  - destruct (length_snoc_inv frames depth Lf) as (fr & top & Ef & Lfr).
    destruct (length_snoc_inv snaps depth Ls) as (sn & snap & Esn & Lsn).
    assert (Set_ : forall k p,
               match pop (stack0 ++ frames) with
               | Some (rest, t) =>
                   assign_innermost
                     (mkStore vs (stack0 ++ frames) (snaps0 ++ snaps) clock
                              conn path) rest t k p
               | None =>
                   write_version
                     (mkStore vs (stack0 ++ frames) (snaps0 ++ snaps) clock
                              conn path) k p
               end =
               mkStore vs (stack0 ++ (fr ++ [dict_set k p top]))
                       (snaps0 ++ snaps) clock conn path).
    { intros k p. rewrite Ef, app_assoc, pop_snoc.
      unfold assign_innermost, with_tx_stack. simpl.
      rewrite <- app_assoc. reflexivity. }
    destruct o; cbn [transaction_body] in B; cbn [exec fold_left].
    + (* set *)
      unfold opened at 1. cbn [step fst]. unfold set. cbn [_tx_stack].
      rewrite Set_.
      apply (IH depth (fr ++ [dict_set k (Val v) top]) snaps); auto.
      rewrite length_app. simpl. lia.
    + (* get *)
      replace (fst (step (frames_on frames snaps) (OGet k default)))
        with (frames_on frames snaps).
      * apply (IH depth frames snaps); auto.
      * unfold opened. cbn [step]. destruct (get _ k default); reflexivity.
    + (* delete *)
      unfold opened at 1. cbn [step fst]. unfold delete. cbn [_tx_stack].
      rewrite Set_.
      apply (IH depth (fr ++ [dict_set k DELETED top]) snaps); auto.
      rewrite length_app. simpl. lia.
    + (* begin *)
      unfold opened at 1. cbn [step fst]. unfold begin.
      cbn [_versions _tx_stack _snapshots _clock _sqlite_conn _sqlite_path].
      rewrite <- !app_assoc.
      apply (IH (S depth) (frames ++ [[]]) (snaps ++ [clock])); auto;
        rewrite length_app; simpl; lia.
    + (* nested commit *)
      destruct depth as [|depth']; [discriminate|].
      destruct (length_snoc_inv fr depth' Lfr) as (below & parent & Eb & Lb).
      unfold opened at 1. cbn [step].
      rewrite (commit_nested _ (stack0 ++ below) parent top (snaps0 ++ sn) snap).
      * cbn [fst _versions _clock _sqlite_conn _sqlite_path].
        rewrite <- app_assoc.
        apply (IH depth' (below ++ [_merge_overlay_into top parent]) sn);
          auto. rewrite length_app. simpl. lia.
      * cbn [_tx_stack]. rewrite Ef, Eb, <- !app_assoc. reflexivity.
      * cbn [_snapshots]. rewrite Esn, <- app_assoc. reflexivity.
    + (* nested rollback *)
      destruct depth as [|depth']; [discriminate|].
      unfold opened at 1. cbn [step]. unfold rollback. cbn [_tx_stack].
      rewrite Ef, app_assoc, pop_snoc.
      cbn [with_tx_stack _snapshots _versions _clock _sqlite_conn
           _sqlite_path].
      rewrite Esn, app_assoc, pop_snoc.
      cbn [fst with_snapshots _snapshots _versions _clock _sqlite_conn
           _sqlite_path _tx_stack].
      apply (IH depth' fr sn); auto.
    + (* in_transaction *)
      unfold opened at 1. cbn [step fst]. apply (IH depth frames snaps); auto.
    + (* snapshot *)
      replace (fst (step (frames_on frames snaps) OSnapshot))
        with (frames_on frames snaps).
      * apply (IH depth frames snaps); auto.
      * unfold opened. cbn [step]. destruct (snapshot _); reflexivity.
    + discriminate.
    + discriminate.
Qed.
End Rollback.

Lemma exec_app (w : world) (ops1 ops2 : list op) :
  exec w (ops1 ++ ops2) = exec (exec w ops1) ops2.
Proof. unfold exec. apply fold_left_app. Qed.

(** C6.  From any store, [begin()], then any transaction body, then
    [rollback()] returns normally and gives back exactly the store (and the
    mirror) there was before [begin]; every later [get] therefore answers
    as if the transaction had never been begun.  In particular, on a fresh
    store, [begin(); set("x",42); rollback()] leaves [get("x")] at its
    default. *)
Theorem rollback_restores_the_store :
  forall (w : world) (body : list op),
    transaction_body 0 body = true ->
    exec w (OBegin :: body ++ [ORollback]) = w /\
    snd (step (exec w (OBegin :: body)) ORollback) = Ok RNone /\
    (forall k d,
       get (fst (exec w (OBegin :: body ++ [ORollback]))) k d = get (fst w) k d) /\
    get (fst (exec (new_store, [])
                   [OBegin; OSet "x"%string (VInt 42); ORollback]))
        "x"%string VNone = Ok VNone.
Proof.
  intros [s dk] body B.
  destruct s as [vs stack0 snaps0 clock conn path].
  destruct (transaction_body_frames vs stack0 snaps0 clock conn path dk body
              0%nat [[]] [clock] eq_refl eq_refl B) as (frame & snap & E).
  assert (E1 : exec (mkStore vs stack0 snaps0 clock conn path, dk)
                    (OBegin :: body) =
               (mkStore vs (stack0 ++ [frame]) (snaps0 ++ [snap]) clock
                        conn path, dk)).
  { exact E. }
  assert (R : step (mkStore vs (stack0 ++ [frame]) (snaps0 ++ [snap]) clock
                            conn path, dk) ORollback =
              ((mkStore vs stack0 snaps0 clock conn path, dk), Ok RNone)).
  { cbn [step]. unfold rollback. cbn [_tx_stack]. rewrite pop_snoc.
    cbn [with_tx_stack _snapshots]. rewrite pop_snoc. reflexivity. }
  assert (E2 : exec (mkStore vs stack0 snaps0 clock conn path, dk)
                    (OBegin :: body ++ [ORollback]) =
               (mkStore vs stack0 snaps0 clock conn path, dk)).
  { change (OBegin :: body ++ [ORollback])
      with ((OBegin :: body) ++ [ORollback]).
    rewrite exec_app, E1. cbn [exec fold_left]. rewrite R. reflexivity. }
  split; [exact E2|]. split; [rewrite E1, R; reflexivity|]. split.
  - intros k d. rewrite E2. reflexivity.
  - reflexivity.
Qed.

Lemma rollback_restores_the_store_witness :
  exec (new_store, [])
       (OBegin :: [OSet "x"%string (VInt 42); OBegin; ODelete "y"%string;
                   OCommit; OGet "x"%string VNone] ++ [ORollback])
  = (new_store, []).
Proof.
  exact (proj1 (rollback_restores_the_store (new_store, [])
                  [OSet "x"%string (VInt 42); OBegin; ODelete "y"%string;
                   OCommit; OGet "x"%string VNone] eq_refl)).
Defined.

(** *** Flush and load *)


Lemma dict_set_fresh {V : Type} (d : dict V) (k : key) (v : V) :
  ~ In k (keys d) -> dict_set k v d = d ++ [(k, v)].
Proof.
  induction d as [|[k0 v0] d IH]; simpl; intros NI; [reflexivity|].
  destruct (String.eqb_spec k k0) as [E|N].
  - exfalso. apply NI. left. symmetry. exact E.
  - rewrite IH by tauto. reflexivity.
Qed.

Lemma disk_table_write_table (p : string) (t : table) (d : disk) :
  disk_table p (write_table p t d) =
  if String.eqb p memory_path then [] else t.
Proof.
  unfold disk_table, write_table.
  destruct (String.eqb p memory_path); [reflexivity|].
  rewrite dict_get_set_eq. reflexivity.
Qed.

Lemma dict_get_app {V : Type} (d1 d2 : dict V) (k : key) :
  dict_get k (d1 ++ d2) =
  match dict_get k d1 with Some v => Some v | None => dict_get k d2 end.
Proof.
  induction d1 as [|[k0 v0] d1 IH]; simpl; [reflexivity|].
  destruct (String.eqb k k0); [reflexivity | exact IH].
Qed.

Lemma grows_refl (s : Store) : grows s s.
Proof. split; [reflexivity | apply incl_refl]. Qed.

Lemma grows_trans (s1 s2 s3 : Store) : grows s1 s2 -> grows s2 s3 -> grows s1 s3.
Proof.
  intros [C1 K1] [C2 K2]. split; [congruence | eapply incl_tran; eassumption].
Qed.

Lemma keys_setdefault_append (k : key) (e : version) (vs : dict chain) :
  incl (keys vs) (keys (setdefault_append k e vs)) /\
  In k (keys (setdefault_append k e vs)).
Proof.
  unfold setdefault_append. destruct (dict_get k vs) as [c|] eqn:E.
  - rewrite keys_dict_set. unfold dict_mem. rewrite E.
    split; [apply incl_refl | eapply dict_get_Some_key; exact E].
  - rewrite keys_dict_set. unfold dict_mem. rewrite E. split.
    + apply incl_appl, incl_refl.
    + apply in_or_app. right. left. reflexivity.
Qed.

Lemma write_version_grows (s : Store) (k : key) (p : payload) :
  grows s (write_version s k p) /\ In k (keys (_versions (write_version s k p))).
Proof.
  destruct (keys_setdefault_append k (_clock s + 1, p) (_versions s)) as [I K].
  split; [split; [reflexivity | exact I] | exact K].
Qed.

Lemma fold_write_grows {A : Type} (f : A -> key) (g : A -> payload)
  (l : list A) (s : Store) :
  let s' := fold_left (fun st a => write_version st (f a) (g a)) l s in
  grows s s' /\ forall a, In a l -> In (f a) (keys (_versions s')).
Proof.
  revert s. induction l as [|a l IH]; simpl; intros s.
  - split; [apply grows_refl | tauto].
  - destruct (write_version_grows s (f a) (g a)) as [G K].
    destruct (IH (write_version s (f a) (g a))) as [G' K'].
    split; [eapply grows_trans; eassumption|].
    intros b [<-|I]; [|apply K'; exact I].
    destruct G' as [_ Inc]. apply Inc. exact K.
Qed.

Lemma set_payload_grows (s : Store) (k : key) (p : payload) :
  grows s (match pop (_tx_stack s) with
           | Some (rest, top) => assign_innermost s rest top k p
           | None => write_version s k p
           end).
Proof.
  destruct (pop (_tx_stack s)) as [[rest top]|].
  - split; [reflexivity | apply incl_refl].
  - apply write_version_grows.
Qed.

Lemma commit_grows (s : Store) : grows s (fst (commit s)).
Proof.
  unfold commit. destruct (pop (_tx_stack s)) as [[rest top]|]; simpl;
    [|apply grows_refl].
  destruct (pop (_snapshots s)) as [[snaps snap]|]; simpl;
    [|split; [reflexivity | apply incl_refl]].
  destruct (pop rest) as [[below parent]|]; simpl;
    [split; [reflexivity | apply incl_refl]|].
  destruct (first_conflict _ _ _); simpl;
    [split; [reflexivity | apply incl_refl]|].
  unfold write_all.
  apply (fold_write_grows fst snd top
           (with_snapshots (with_tx_stack s rest) snaps)).
Qed.

Lemma rollback_grows (s : Store) : grows s (fst (rollback s)).
Proof.
  unfold rollback. destruct (pop (_tx_stack s)) as [[rest top]|]; simpl;
    [|apply grows_refl].
  destruct (pop (_snapshots s)) as [[snaps snap]|];
    (split; [reflexivity | apply incl_refl]).
Qed.

(** *** What a flush leaves in the table *)

Lemma rows_outside_delete (k : key) (ks : list key) (t : table) :
  rows_outside ks (sql_delete k t) = rows_outside (k :: ks) t.
Proof.
  unfold rows_outside, sql_delete.
  induction t as [|[k0 x0] t IH]; simpl; [reflexivity|].
  rewrite (String.eqb_sym k0 k).
  destruct (String.eqb k k0); simpl; [exact IH|].
  destruct (existsb (String.eqb k0) ks); simpl; [exact IH|].
  rewrite IH. reflexivity.
Qed.

Lemma rows_outside_app (ks : list key) (t1 t2 : table) :
  rows_outside ks (t1 ++ t2) = rows_outside ks t1 ++ rows_outside ks t2.
Proof. apply filter_app. Qed.

Lemma rows_outside_fresh (ks : list key) (k : key) (x : sqlvalue) :
  ~ In k ks -> rows_outside ks [(k, x)] = [(k, x)].
Proof.
  intros NI. unfold rows_outside. simpl.
  destruct (existsb (String.eqb k) ks) eqn:E; [|reflexivity].
  exfalso. apply existsb_exists in E. destruct E as (k' & I & E).
  apply String.eqb_eq in E. subst. contradiction.
Qed.

Lemma rows_outside_covered (ks : list key) (t : table) :
  incl (keys t) ks -> rows_outside ks t = [].
Proof.
  unfold rows_outside. induction t as [|[k0 x0] t IH]; simpl; intros I;
    [reflexivity|].
  assert (E : existsb (String.eqb k0) ks = true).
  { apply existsb_exists. exists k0. split; [|apply String.eqb_refl].
    apply I. left. reflexivity. }
  rewrite E. simpl. apply IH. intros k Hk. apply I. right. exact Hk.
Qed.

Lemma stored_rows_cons (k : key) (c : chain) (items : dict chain) :
  stored_rows ((k, c) :: items) =
  match last_item c with
  | Some (_, Val v) =>
      match bind_value v with
      | Ok x => [(k, x)]
      | Raise _ => []
      end
  | _ => []
  end ++ stored_rows items.
Proof. reflexivity. Qed.

Lemma flush_rows_Ok (items : dict chain) :
  NoDup (keys items) ->
  forall t t', flush_rows items t = Ok t' ->
               t' = rows_outside (keys items) t ++ stored_rows items.
Proof.
  induction items as [|[k c] items IH]; intros ND t t' H.
  - simpl in H. inversion H; subst. unfold rows_outside. simpl.
    rewrite app_nil_r. clear. induction t' as [|r t' IHt]; simpl.
    + reflexivity.
    + rewrite <- IHt. reflexivity.
  - simpl in ND. inversion ND as [|? ? NI ND']; subst.
    rewrite stored_rows_cons. cbn [flush_rows] in H.
    change (keys ((k, c) :: items)) with (k :: keys items).
    destruct (last_item c) as [[ts [v|]]|]; [| |discriminate].
    + destruct (bind_value v) as [x|e]; [|discriminate].
      rewrite (IH ND' _ _ H). unfold sql_replace.
      rewrite rows_outside_app, rows_outside_delete,
        (rows_outside_fresh _ _ _ NI), <- app_assoc. reflexivity.
    + rewrite (IH ND' _ _ H). rewrite rows_outside_delete. reflexivity.
Qed.

Lemma keys_stored_rows (items : dict chain) :
  incl (keys (stored_rows items)) (keys items).
Proof.
  induction items as [|[k c] items IH]; [apply incl_refl|].
  rewrite stored_rows_cons.
  change (keys ((k, c) :: items)) with (k :: keys items).
  destruct (last_item c) as [[ts [v|]]|]; try (apply incl_tl; exact IH).
  destruct (bind_value v); [|apply incl_tl; exact IH].
  apply incl_cons; [left; reflexivity | apply incl_tl; exact IH].
Qed.






(** *** What a snapshot outside a transaction holds *)

Lemma live_cons (k : key) (c : chain) (items : dict chain) :
  live ((k, c) :: items) =
  match last_item c with
  | Some (_, Val v) => [(k, v)]
  | _ => []
  end ++ live items.
Proof. reflexivity. Qed.

Lemma project_latest_live (items : dict chain) (t : Z) :
  NoDup (keys items) ->
  Forall (fun kc => chain_ok t (snd kc)) items ->
  forall res,
    (forall k, In k (keys items) -> ~ In k (keys res)) ->
    project_latest items res = Ok (res ++ live items).
Proof.
  induction items as [|[k c] items IH]; intros ND F res Fr.
  - simpl. rewrite app_nil_r. reflexivity.
  - simpl in ND. inversion ND as [|? ? NI ND']; subst.
    inversion F as [|? ? (N & _) F']; subst. simpl in N.
    rewrite live_cons. cbn [project_latest].
    destruct (pop_cases c) as [[E _]|(r & x & E & _)]; [contradiction|].
    subst c. rewrite last_item_snoc. destruct x as [ts [v|]].
    + rewrite dict_set_fresh by (apply Fr; left; reflexivity).
      rewrite (IH ND' F').
      * rewrite <- app_assoc. reflexivity.
      * intros k' Hk' Hin. unfold keys in Hin. rewrite map_app in Hin.
        apply in_app_or in Hin. destruct Hin as [Hin|[E|[]]].
        -- apply (Fr k'); [right; exact Hk' | exact Hin].
        -- simpl in E. subst k'. contradiction.
    + apply (IH ND' F'). intros k' Hk'. apply Fr. right. exact Hk'.
Qed.

Lemma snapshot_closed (s : Store) :
  Inv s -> _tx_stack s = [] -> snapshot s = Ok (live (_versions s)).
Proof.
  intros I E. unfold snapshot. rewrite E.
  rewrite (project_latest_live (_versions s) (_clock s)
             (inv_keys s I) (inv_chains s I) []); [reflexivity|].
  intros k _ [].
Qed.

Lemma NoDup_keys_live (items : dict chain) :
  NoDup (keys items) -> NoDup (keys (live items)).
Proof.
  induction items as [|[k c] items IH]; intros ND; [constructor|].
  simpl in ND. inversion ND as [|? ? NI ND']; subst.
  rewrite live_cons.
  assert (Sub : incl (keys (live items)) (keys items)).
  { clear. induction items as [|[k c] items IH]; [apply incl_refl|].
    rewrite live_cons. change (keys ((k, c) :: items)) with (k :: keys items).
    destruct (last_item c) as [[ts [v|]]|]; try (apply incl_tl; exact IH).
    apply incl_cons; [left; reflexivity | apply incl_tl; exact IH]. }
  destruct (last_item c) as [[ts [v|]]|]; simpl; auto.
  constructor; [|auto]. intros Hin. apply NI. apply Sub. exact Hin.
Qed.

(** *** Loading a table into a fresh store *)



Lemma round_trips_spec (v : value) :
  round_trips v = true <->
  exists x, bind_value v = Ok x /\ fetch_value x = v.
Proof.
  split.
  - destruct v as [|n|str|b|o]; try discriminate; intros _.
    + exists SqlNull. split; reflexivity.
    + exists (SqlText str). split; reflexivity.
    + exists (SqlBlob b). split; reflexivity.
  - intros (x & B & F). destruct v as [|n|str|b|o]; try reflexivity.
    + destruct x; discriminate.
    + destruct x; discriminate.
Qed.



Lemma step_conn (w : world) (o : op) :
  _sqlite_conn (fst w) = None -> _sqlite_conn (fst (fst (step w o))) = None.
Proof.
  destruct w as [s d]. cbn [fst]. intros C. destruct o; cbn [step fst].
  - unfold set. rewrite (proj1 (set_payload_grows s k (Val v))). exact C.
  - destruct (get s k default); exact C.
  - unfold delete. rewrite (proj1 (set_payload_grows s k DELETED)). exact C.
  - exact C.
  - pose proof (proj1 (commit_grows s)) as G. destruct (commit s).
    simpl in *. congruence.
  - pose proof (proj1 (rollback_grows s)) as G. destruct (rollback s).
    simpl in *. congruence.
  - exact C.
  - destruct (snapshot s); exact C.
  - destruct (flush_to_sqlite s d). exact C.
  - reflexivity.
Qed.


Lemma init_conn_empty_path (initial : option (dict value)) (d : disk) :
  _sqlite_conn (fst (__init__ initial (Some EmptyString) d)) = None.
Proof.
  unfold __init__. simpl. destruct initial as [ini|]; [|reflexivity].
  simpl. unfold seed.
  rewrite (proj1 (proj1 (fold_write_grows fst (fun kv => Val (snd kv)) ini
                           (mkStore [] [] [] 0 None (Some EmptyString))))).
  reflexivity.
Qed.



(** *** Resolution order of reads *)

Lemma scan_find (l : list version) (ts : Z) :
  scan_at_or_before l ts =
  match find (fun e => fst e <=? ts) l with
  | Some (_, Val v) => v
  | _ => VNone
  end.
Proof.
  induction l as [|[vts val] l IH]; simpl; [reflexivity|].
  destruct (vts <=? ts); [destruct val; reflexivity | exact IH].
Qed.

Lemma committed_at_or_before_find (s : Store) (k : key) (ts : Z) :
  _committed_at_or_before s k ts =
  match newest_at_or_before (chain_of s k) ts with
  | Some (_, Val v) => v
  | _ => VNone
  end.
Proof.
  unfold _committed_at_or_before, chain_of, newest_at_or_before.
  destruct (dict_get k (_versions s)) as [[|e c]|]; try reflexivity.
  apply scan_find.
Qed.

Lemma newest_In (c : chain) (ts ts' : Z) (p : payload) :
  newest_at_or_before c ts = Some (ts', p) -> In (ts', p) c.
Proof.
  unfold newest_at_or_before. intros H. apply find_some in H.
  destruct H as [H _]. apply in_rev. exact H.
Qed.

Lemma in_transaction_open (s : Store) (rest : list overlay) (top : overlay) :
  _tx_stack s = rest ++ [top] -> in_transaction s = true.
Proof.
  unfold in_transaction. intros ->. destruct rest; reflexivity.
Qed.

Lemma chain_of_In (s : Store) (k : key) (e : version) :
  In e (chain_of s k) -> exists c, In (k, c) (_versions s) /\ In e c.
Proof.
  unfold chain_of. destruct (dict_get k (_versions s)) as [c|] eqn:E; [|intros []].
  intros H. exists c. split; [apply dict_get_In; exact E | exact H].
Qed.

(** Away from stored [None]s, [get] follows the specified resolution
    order on every reachable store. *)
Lemma get_follows_resolution_order (s : Store) (k : key) (d : value) :
  Inv s -> no_stored_None s -> get s k d = Ok (get_spec s k d).
Proof.
  intros I NN. unfold get, get_spec.
  destruct (overlay_hit (rev (_tx_stack s)) k) as [[v|]|]; try reflexivity.
  unfold visible_payload.
  destruct (pop_cases (_tx_stack s)) as [[E _]|(rest & top & E & _)].
  - rewrite E. unfold in_transaction. rewrite E.
    unfold _latest_committed, chain_of.
    destruct (dict_get k (_versions s)) as [c|]; [|reflexivity].
    destruct (last_item c) as [[ts [v|]]|]; reflexivity.
  - rewrite (in_transaction_open s rest top E).
    destruct (Inv_open s rest top I E) as (snaps & Es & _).
    unfold innermost_snapshot_ts. rewrite Es, last_item_snoc.
    destruct (_tx_stack s); [destruct rest; discriminate|].
    rewrite committed_at_or_before_find.
    destruct (newest_at_or_before (chain_of s k) (_clock s))
      as [[ts [v|]]|] eqn:F; try reflexivity.
    simpl. destruct v; try reflexivity.
    exfalso. apply newest_In in F. apply chain_of_In in F.
    destruct F as (c & Hc & Hin). apply (NN k c ts Hc Hin).
Qed.

(** C3.  The resolution order holds on the overlay path and on the
    no-transaction path, but not on the snapshot path: a committed [None]
    read inside a transaction comes back as the default.  After
    [set("k", None)], [get("k", 5)] is [None] outside a transaction (the
    stored payload) and [5] right after [begin()], where the specified
    order still gives the stored payload. *)
Theorem get_under_snapshot_hides_stored_None :
  let s := set new_store "k"%string VNone in
  _versions (begin s) = [("k"%string, [(1, Val VNone)])] /\
  _snapshots (begin s) = [1] /\
  get s "k"%string (VInt 5) = Ok VNone /\
  get (begin s) "k"%string (VInt 5) = Ok (VInt 5) /\
  get_spec (begin s) "k"%string (VInt 5) = VNone /\
  get (begin s) "k"%string (VInt 5) <> Ok (get_spec (begin s) "k"%string (VInt 5)).
Proof.
  vm_compute. repeat split; discriminate.
Qed.

(** *** What a snapshot holds *)

Lemma project_at_spec (s : Store) (ts : Z) (items : dict chain) :
  (forall k c, In (k, c) items -> dict_get k (_versions s) = Some c) ->
  (forall k c t, In (k, c) items -> ~ In (t, Val VNone) c) ->
  NoDup (keys items) ->
  forall res,
    (forall k, In k (keys items) -> ~ In k (keys res)) ->
    project_at s (keys items) ts res =
    res ++ flat_map
             (fun kc =>
                match option_map snd (newest_at_or_before (snd kc) ts) with
                | Some (Val v) => [(fst kc, v)]
                | _ => []
                end) items.
Proof.
  induction items as [|[k c] items IH]; intros G NN ND res Fr.
  - simpl. rewrite app_nil_r. reflexivity.
  - simpl in ND. inversion ND as [|? ? NI ND']; subst.
    assert (IH' : forall res',
               (forall k', In k' (keys items) -> ~ In k' (keys res')) ->
               project_at s (keys items) ts res' =
               res' ++ flat_map
                 (fun kc =>
                    match option_map snd (newest_at_or_before (snd kc) ts) with
                    | Some (Val v) => [(fst kc, v)]
                    | _ => []
                    end) items).
    { apply IH; [| |exact ND'].
      - intros k' c' Hin. apply G. right. exact Hin.
      - intros k' c' t Hin. apply (NN k' c' t). right. exact Hin. }
    assert (Fr' : forall k', In k' (keys items) -> ~ In k' (keys res)).
    { intros k' Hk'. apply Fr. right. exact Hk'. }
    assert (Fr2 : forall v k', In k' (keys items) ->
                               ~ In k' (keys (res ++ [(k, v)]))).
    { intros v k' Hk' Hin. unfold keys in Hin. rewrite map_app in Hin.
      apply in_app_or in Hin. destruct Hin as [Hin|[E|[]]].
      - apply (Fr' k' Hk' Hin).
      - simpl in E. subst k'. contradiction. }
    change (keys ((k, c) :: items)) with (k :: keys items).
    cbn [project_at flat_map fst snd].
    rewrite committed_at_or_before_find.
    unfold chain_of. rewrite (G k c (or_introl eq_refl)).
    destruct (newest_at_or_before c ts) as [[t [v|]]|] eqn:F; simpl.
    + assert (Nv : v <> VNone).
      { intros ->. apply newest_In in F.
        apply (NN k c t (or_introl eq_refl) F). }
      destruct v as [|n|str|b|o]; [contradiction|..];
        (rewrite dict_set_fresh by (apply Fr; left; reflexivity);
         rewrite IH' by (apply Fr2); rewrite <- app_assoc; reflexivity).
    + apply IH'. exact Fr'.
    + apply IH'. exact Fr'.
Qed.

(** Away from stored [None]s, [snapshot] builds the specified map on every
    reachable store. *)
Lemma snapshot_follows_spec (s : Store) :
  Inv s -> no_stored_None s -> snapshot s = Ok (snapshot_spec s).
Proof.
  intros I NN. unfold snapshot_spec, committed_projection, visible_payload.
  destruct (pop_cases (_tx_stack s)) as [[E _]|(rest & top & E & _)].
  - rewrite (snapshot_closed s I E). unfold in_transaction. rewrite E. simpl.
    f_equal. unfold live. apply flat_map_ext. intros [k c].
    cbv beta. cbn [fst snd].
    assert (H : forall o : option version,
               match o with
               | Some (_, Val v) => [(k, v)]
               | _ => []
               end =
               match option_map snd o with
               | Some (Val v) => [(k, v)]
               | _ => []
               end).
    { intros [[ts [v|]]|]; reflexivity. }
    apply H.
  - rewrite (in_transaction_open s rest top E).
    destruct (Inv_open s rest top I E) as (snaps & Es & _).
    unfold snapshot, innermost_snapshot_ts. rewrite Es, last_item_snoc.
    destruct (_tx_stack s) eqn:St; [destruct rest; discriminate|].
    rewrite (project_at_spec s (_clock s) (_versions s)).
    + reflexivity.
    + intros k c Hin. apply In_dict_get; [apply (inv_keys s I) | exact Hin].
    + intros k c t Hin. apply (NN k c t Hin).
    + apply (inv_keys s I).
    + intros k _ [].
Qed.

(** C7.  [snapshot] builds the specified map in S7, but not in general:
    inside a transaction the committed projection leaves out a key whose
    visible payload is a stored [None], which the projection outside a
    transaction keeps.  After [set("k", None)], [snapshot()] is
    [{"k": None}]; right after [begin()] it is [{}], where the specified
    map is still [{"k": None}]. *)
Theorem snapshot_under_snapshot_drops_stored_None :
  let s := set new_store "k"%string VNone in
  snapshot (fst (exec (new_store, []) S7_calls)) =
    Ok [("a"%string, VInt 10); ("b"%string, VInt 20); ("c"%string, VInt 30)] /\
  snapshot s = Ok [("k"%string, VNone)] /\
  snapshot (begin s) = Ok [] /\
  snapshot_spec (begin s) = [("k"%string, VNone)] /\
  snapshot (begin s) <> Ok (snapshot_spec (begin s)).
Proof.
  vm_compute. repeat split; discriminate.
Qed.

(** ** The scenarios of the test suite *)

Example S1_set_and_get :
  let s := set new_store "a"%string (VInt 1) in
  get s "a"%string VNone = Ok (VInt 1) /\ get s "b"%string VNone = Ok VNone.
Proof. split; reflexivity. Qed.

Example S2_delete :
  let s := delete (set new_store "a"%string (VInt 1)) "a"%string in
  get s "a"%string VNone = Ok VNone /\
  _versions s = [("a"%string, [(1, Val (VInt 1)); (2, DELETED)])].
Proof. split; reflexivity. Qed.

Example S3_rollback_hides_writes :
  outcomes (new_store, [])
           [OBegin; OSet "x"%string (VInt 42); OGet "x"%string VNone;
            ORollback; OGet "x"%string VNone]
  = [Ok RNone; Ok RNone; Ok (RValue (VInt 42)); Ok RNone; Ok (RValue VNone)].
Proof. reflexivity. Qed.

Example S4_nested_commit :
  let w := exec (new_store, [])
                [OBegin; OSet "a"%string (VInt 1); OBegin;
                 OSet "b"%string (VInt 2); OCommit; OCommit] in
  get (fst w) "a"%string VNone = Ok (VInt 1) /\
  get (fst w) "b"%string VNone = Ok (VInt 2).
Proof. split; reflexivity. Qed.

Example S5_nested_rollback :
  let w := exec (new_store, [])
                [OBegin; OSet "a"%string (VInt 1); OBegin;
                 OSet "b"%string (VInt 2); ORollback; OCommit] in
  get (fst w) "a"%string VNone = Ok (VInt 1) /\
  get (fst w) "b"%string VNone = Ok VNone.
Proof. split; reflexivity. Qed.

Example S8_flush_and_reload :
  let p := "kv.sqlite"%string in
  let w := exec (__init__ None (Some p) [])
                [OSet "k1"%string (VStr "v1"); OFlush] in
  get (fst (__init__ None (Some p) (snd w))) "k1"%string VNone
  = Ok (VStr "v1").
Proof. reflexivity. Qed.

Example no_active_transaction_on_a_fresh_store :
  snd (commit new_store) = Raise NoActiveTransaction /\
  snd (rollback new_store) = Raise NoActiveTransaction.
Proof. split; reflexivity. Qed.

(** ** Values and mirrors outside the round trip *)

(** A [float] and a [bool] are stored as text, like an [int]: the
    reloaded engine holds a [str]. *)
Example float_and_bool_come_back_as_text :
  let p := "kv.sqlite"%string in
  let w := exec (__init__ None (Some p) [])
                [OSet "f"%string py_float_tenth; OSet "t"%string py_True;
                 OFlush] in
  snapshot (fst w) = Ok [("f"%string, py_float_tenth); ("t"%string, py_True)] /\
  snapshot (fst (__init__ None (Some p) (snd w)))
  = Ok [("f"%string, VStr "0.1"); ("t"%string, VStr "1")].
Proof. split; reflexivity. Qed.

(** [bytes] are stored as a blob and come back as they are. *)
Example bytes_come_back :
  let p := "kv.sqlite"%string in
  let w := exec (__init__ None (Some p) [])
                [OSet "b"%string (VBytes "raw"); OFlush] in
  snapshot (fst (__init__ None (Some p) (snd w))) = snapshot (fst w).
Proof. reflexivity. Qed.

(** A [str] with a lone surrogate and a [list] make the flush raise, and
    the file keeps the rows it had: the row of ["a"], written by the same
    loop before the failure, is not committed. *)
Example flush_of_an_unbindable_value_raises :
  let p := "kv.sqlite"%string in
  let d := [(p, [("old"%string, SqlText "row")])] in
  outcomes (__init__ None (Some p) d)
           [OSet "a"%string (VStr "x"); OSet "s"%string py_lone_surrogate;
            OFlush; OSet "s"%string py_list; OFlush]
  = [Ok RNone; Ok RNone; Raise UnicodeEncodeError; Ok RNone;
     Raise ProgrammingError] /\
  snd (exec (__init__ None (Some p) d)
            [OSet "a"%string (VStr "x"); OSet "s"%string py_lone_surrogate;
             OFlush; OSet "s"%string py_list; OFlush]) = d.
Proof. split; reflexivity. Qed.

(** The database of a [":memory:"] connection is private to it: the flush
    creates no file, and a new engine over [":memory:"] starts empty. *)
Example memory_database_is_private :
  let w := exec (__init__ None (Some memory_path) [])
                [OSet "a"%string (VStr "x"); OFlush] in
  snd w = [] /\
  snapshot (fst w) = Ok [("a"%string, VStr "x")] /\
  snapshot (fst (__init__ None (Some memory_path) (snd w))) = Ok [].
Proof. repeat split; reflexivity. Qed.

(** * Further properties of the store *)

(** ** Reads after writes *)

Lemma latest_after_write (s : Store) (k : key) (p : payload) :
  _latest_committed (write_version s k p) k = Some (_clock s + 1, p).
Proof.
  unfold _latest_committed, write_version. cbn [_versions with_versions].
  rewrite setdefault_append_get, String.eqb_refl. apply last_item_snoc.
Qed.

Lemma latest_after_other_write (s : Store) (k k' : key) (p : payload) :
  k <> k' ->
  _latest_committed (write_version s k' p) k = _latest_committed s k.
Proof.
  intros N. unfold _latest_committed, write_version.
  cbn [_versions with_versions]. rewrite setdefault_append_get.
  apply String.eqb_neq in N. rewrite N. reflexivity.
Qed.

Lemma get_after_assign (s : Store) (k : key) (p : payload) (d : value) :
  get (match pop (_tx_stack s) with
       | Some (rest, top) => assign_innermost s rest top k p
       | None => write_version s k p
       end) k d =
  Ok (match p with Val v => v | DELETED => d end).
Proof.
  destruct (pop_cases (_tx_stack s)) as [[E ->]|(rest & top & E & ->)].
  - unfold get. cbn [write_version with_versions _tx_stack]. rewrite E.
    cbn [rev overlay_hit].
    change (_latest_committed
              (with_versions s
                 (setdefault_append k (_clock s + 1, p) (_versions s))
                 (_clock s + 1)) k)
      with (_latest_committed (write_version s k p) k).
    rewrite latest_after_write. destruct p; reflexivity.
  - unfold get. cbn [assign_innermost with_tx_stack _tx_stack].
    rewrite rev_app_distr. cbn [rev app overlay_hit].
    rewrite dict_get_set_eq. destruct p; reflexivity.
Qed.

(** X1.  Read your writes: on any store, inside or outside a transaction,
    [get(k)] right after [set(k, v)] returns [v] (also when [v] is [None]),
    and [get(k, d)] right after [delete(k)] returns the default [d]. *)
Theorem get_after_set_and_delete :
  forall (s : Store) (k : key) (v d : value),
    get (set s k v) k d = Ok v /\
    get (delete s k) k d = Ok d.
Proof.
  intros s k v d. split.
  - apply (get_after_assign s k (Val v) d).
  - apply (get_after_assign s k DELETED d).
Qed.

Lemma get_after_other_write (s : Store) (k k' : key) (p : payload) (d : value) :
  k <> k' ->
  get (match pop (_tx_stack s) with
       | Some (rest, top) => assign_innermost s rest top k' p
       | None => write_version s k' p
       end) k d = get s k d.
Proof.
  intros N.
  destruct (pop_cases (_tx_stack s)) as [[E ->]|(rest & top & E & ->)].
  - unfold get. cbn [write_version with_versions _tx_stack]. rewrite E.
    cbn [rev overlay_hit].
    change (_latest_committed
              (with_versions s
                 (setdefault_append k' (_clock s + 1, p) (_versions s))
                 (_clock s + 1)) k)
      with (_latest_committed (write_version s k' p) k).
    rewrite latest_after_other_write by exact N. reflexivity.
  - apply get_assign_other; assumption.
Qed.

(** X2.  A write touches one key: on any store, inside or outside a
    transaction, [set] or [delete] of a key leaves what [get] returns for
    every other key as it was. *)
Theorem write_leaves_other_keys :
  forall (s : Store) (k k' : key) (v d : value),
    k <> k' ->
    get (set s k' v) k d = get s k d /\
    get (delete s k') k d = get s k d.
Proof.
  intros s k k' v d N. split.
  - apply (get_after_other_write s k k' (Val v) d N).
  - apply (get_after_other_write s k k' DELETED d N).
Qed.

Lemma write_leaves_other_keys_witness :
  get (set (set new_store "a"%string (VInt 1)) "b"%string (VInt 2))
      "a"%string VNone = Ok (VInt 1).
Proof.
  rewrite (proj1 (write_leaves_other_keys
                    (set new_store "a"%string (VInt 1))
                    "a"%string "b"%string (VInt 2) VNone
                    ltac:(discriminate))).
  reflexivity.
Defined.

(** ** Transactions and the committed state *)

Lemma fold_write_stack {A : Type} (f : A -> key) (g : A -> payload)
  (l : list A) (s : Store) :
  _tx_stack (fold_left (fun st a => write_version st (f a) (g a)) l s) =
  _tx_stack s.
Proof.
  revert s. induction l as [|a l IH]; intros s; [reflexivity|].
  cbn [fold_left]. rewrite IH. reflexivity.
Qed.

Lemma in_transaction_false (s : Store) :
  _tx_stack s = [] -> in_transaction s = false.
Proof. unfold in_transaction. intros ->. reflexivity. Qed.

(** X3.  Isolation of the committed state: while a transaction is open,
    no call changes the version chains or the clock, except the [commit]
    that closes the outermost transaction.  This holds on any store. *)
Theorem open_transaction_freezes_committed_state :
  forall (w : world) (o : op),
    in_transaction (fst w) = true ->
    (o = OCommit -> in_transaction (fst (fst (step w o))) = true) ->
    _versions (fst (fst (step w o))) = _versions (fst w) /\
    _clock (fst (fst (step w o))) = _clock (fst w).
Proof.
  intros [s d] o T H. cbn [fst] in *.
  destruct (pop_cases (_tx_stack s)) as [[E _]|(rest & top & E & P)].
  { rewrite (in_transaction_false s E) in T. discriminate. }
  destruct o; cbn [step fst].
  - unfold set. rewrite P. split; reflexivity.
  - destruct (get s k default); split; reflexivity.
  - unfold delete. rewrite P. split; reflexivity.
  - split; reflexivity.
  - specialize (H eq_refl). cbn [step] in H. revert H. unfold commit.
    rewrite P. cbn [with_tx_stack _snapshots].
    destruct (pop (_snapshots s)) as [[snaps snap]|];
      [|intros _; split; reflexivity].
    destruct (pop rest) as [[below parent]|] eqn:Pr;
      [intros _; split; reflexivity|].
    apply pop_None in Pr. subst rest.
    destruct (first_conflict _ _ _); cbn [fst].
    + intros H. discriminate.
    + intros H. exfalso. unfold in_transaction, write_all in H.
      rewrite fold_write_stack in H. discriminate.
  - unfold rollback. rewrite P. cbn [with_tx_stack _snapshots].
    destruct (pop (_snapshots s)) as [[snaps snap]|]; split; reflexivity.
  - split; reflexivity.
  - destruct (snapshot s); split; reflexivity.
  - destruct (flush_to_sqlite s d); split; reflexivity.
  - split; reflexivity.
Qed.

Lemma open_transaction_freezes_committed_state_witness :
  _versions (fst (fst (step (exec (new_store, []) [OSet "a"%string (VInt 1); OBegin])
                            (ODelete "a"%string))))
  = [("a"%string, [(1, Val (VInt 1))])].
Proof.
  rewrite (proj1 (open_transaction_freezes_committed_state
                    (exec (new_store, []) [OSet "a"%string (VInt 1); OBegin])
                    (ODelete "a"%string) eq_refl
                    ltac:(discriminate))).
  reflexivity.
Defined.


Lemma commit_on_reachable_cases (s : Store) :
  Inv s ->
  (_tx_stack s = [] /\ snd (commit s) = Raise NoActiveTransaction) \/
  (exists rest top, _tx_stack s = rest ++ [top] /\
                    snd (commit s) = Ok tt /\
                    List.length (_tx_stack (fst (commit s))) = List.length rest).
Proof.
  intros I. destruct (pop_cases (_tx_stack s)) as [[E _]|(rest & top & E & _)].
  - left. split; [exact E|]. rewrite (commit_empty s E). reflexivity.
  - right. exists rest, top. split; [exact E|].
    destruct (Inv_open s rest top I E) as (snaps & Es & Len & _).
    destruct (pop_cases rest) as [[Er _]|(below & parent & Er & _)].
    + subst rest. rewrite (commit_on_reachable s top I E). cbn [fst snd].
      split; [reflexivity|]. unfold write_all. rewrite fold_write_stack.
      reflexivity.
    + subst rest. rewrite (commit_nested s _ _ _ _ _ E Es). cbn [fst snd].
      split; [reflexivity|]. cbn [_tx_stack]. rewrite !length_app. reflexivity.
Qed.

Lemma rollback_on_reachable_cases (s : Store) :
  Inv s ->
  (_tx_stack s = [] /\ snd (rollback s) = Raise NoActiveTransaction) \/
  (exists rest top, _tx_stack s = rest ++ [top] /\
                    snd (rollback s) = Ok tt /\
                    _tx_stack (fst (rollback s)) = rest).
Proof.
  intros I. destruct (pop_cases (_tx_stack s)) as [[E _]|(rest & top & E & _)].
  - left. split; [exact E|]. unfold rollback. rewrite E. reflexivity.
  - right. exists rest, top. split; [exact E|].
    destruct (Inv_open s rest top I E) as (snaps & Es & Len & _).
    unfold rollback. rewrite E, pop_snoc. cbn [with_tx_stack _snapshots].
    rewrite Es, pop_snoc. split; reflexivity.
Qed.




(** X5.  Inside a transaction, on a store reached from the constructor,
    [commit] and [rollback] always return normally and close exactly one
    transaction: the depth of the stack goes down by one. *)
Theorem commit_and_rollback_close_one_transaction :
  forall (initial : option (dict value)) (sqlite_path : option string)
         (d : disk) (ops : list op),
    let s := fst (exec (__init__ initial sqlite_path d) ops) in
    in_transaction s = true ->
    snd (commit s) = Ok tt /\
    snd (rollback s) = Ok tt /\
    S (List.length (_tx_stack (fst (commit s)))) = List.length (_tx_stack s) /\
    S (List.length (_tx_stack (fst (rollback s)))) = List.length (_tx_stack s).
Proof.
  intros initial sqlite_path d ops s T.
  pose proof (reachable_Inv initial sqlite_path d ops) as I. fold s in I.
  destruct (commit_on_reachable_cases s I) as [[E _]|(rest & top & E & R & L)].
  { rewrite (in_transaction_false s E) in T. discriminate. }
  destruct (rollback_on_reachable_cases s I)
    as [[E' _]|(rest' & top' & E' & R' & L')].
  { rewrite (in_transaction_false s E') in T. discriminate. }
  split; [exact R|]. split; [exact R'|]. split.
  - rewrite L, E, length_app. simpl. lia.
  - rewrite L', E', length_app. simpl. lia.
Qed.

Lemma commit_and_rollback_close_one_transaction_witness :
  snd (commit (fst (exec (__init__ None None [])
                         [OBegin; OSet "a"%string (VInt 1); OBegin]))) = Ok tt.
Proof.
  exact (proj1 (commit_and_rollback_close_one_transaction None None []
                  [OBegin; OSet "a"%string (VInt 1); OBegin] eq_refl)).
Defined.

(** ** Snapshot and get agree *)

Lemma apply_overlay_get (o : overlay) :
  NoDup (keys o) ->
  forall (res : dict value) (k : key),
    NoDup (keys res) ->
    NoDup (keys (apply_overlay res o)) /\
    dict_get k (apply_overlay res o) =
    match dict_get k o with
    | Some (Val v) => Some v
    | Some DELETED => None
    | None => dict_get k res
    end.
Proof.
  unfold apply_overlay.
  induction o as [|[k0 p0] o IH]; intros ND res k NDr.
  - split; [exact NDr | reflexivity].
  - simpl in ND. inversion ND as [|? ? NI ND']; subst.
    cbn [fold_left fst snd dict_get].
    assert (NDr1 : NoDup (keys (match p0 with
                                | Val v => dict_set k0 v res
                                | DELETED => dict_pop k0 res
                                end))).
    { destruct p0; [apply NoDup_dict_set | apply NoDup_dict_pop]; exact NDr. }
    destruct (IH ND' _ k NDr1) as [N1 G1]. split; [exact N1|].
    rewrite G1. destruct (String.eqb_spec k k0) as [E|N].
    + subst k0. apply dict_get_None in NI. rewrite NI.
      destruct p0.
      * apply dict_get_set_eq.
      * rewrite dict_get_pop by exact NDr. rewrite String.eqb_refl.
        reflexivity.
    + destruct (dict_get k o) as [[v|]|]; try reflexivity.
      destruct p0.
      * apply dict_get_set_neq. exact N.
      * rewrite dict_get_pop by exact NDr.
        apply String.eqb_neq in N. rewrite N. reflexivity.
Qed.

Lemma overlay_stack_get (stack : list overlay) :
  Forall (fun o : overlay => NoDup (keys o)) stack ->
  forall (res : dict value) (k : key),
    NoDup (keys res) ->
    NoDup (keys (fold_left apply_overlay stack res)) /\
    dict_get k (fold_left apply_overlay stack res) =
    match overlay_hit (rev stack) k with
    | Some (Val v) => Some v
    | Some DELETED => None
    | None => dict_get k res
    end.
Proof.
  induction stack as [|o stack IH] using rev_ind; intros F res k NDr.
  - split; [exact NDr | reflexivity].
  - apply Forall_app in F. destruct F as [F Fo].
    inversion Fo as [|? ? NDo _]; subst.
    rewrite fold_left_app, rev_app_distr. cbn [fold_left rev app overlay_hit].
    destruct (IH F res k NDr) as [N1 G1].
    destruct (apply_overlay_get o NDo _ k N1) as [N2 G2].
    split; [exact N2|]. rewrite G2.
    destruct (dict_get k o) as [[v|]|]; try reflexivity. exact G1.
Qed.

Lemma project_at_get (s : Store) (snap_ts : Z) (ks : list key) :
  forall (res : dict value) (k : key),
    NoDup (keys res) ->
    NoDup (keys (project_at s ks snap_ts res)) /\
    dict_get k (project_at s ks snap_ts res) =
    match (if existsb (String.eqb k) ks
           then _committed_at_or_before s k snap_ts
           else VNone) with
    | VNone => dict_get k res
    | v => Some v
    end.
Proof.
  induction ks as [|k0 ks IH]; intros res k NDr.
  - split; [exact NDr | reflexivity].
  - cbn [project_at existsb].
    destruct (String.eqb_spec k k0) as [E|N].
    + subst k0. cbn [orb].
      destruct (_committed_at_or_before s k snap_ts) as [|n|str|b|o] eqn:C;
        [destruct (IH res k NDr) as [N1 G1]; split; [exact N1|];
         rewrite G1, C; destruct (existsb (String.eqb k) ks); reflexivity|..];
        (match goal with
         | |- context [dict_set k ?v res] =>
             destruct (IH (dict_set k v res) k (NoDup_dict_set _ _ _ NDr))
               as [N1 G1]
         end;
         split; [exact N1|];
         rewrite G1, C, dict_get_set_eq;
         destruct (existsb (String.eqb k) ks); reflexivity).
    + cbn [orb].
      destruct (_committed_at_or_before s k0 snap_ts) as [|n|str|b|o];
        [apply IH; exact NDr|..];
        (match goal with
         | |- context [dict_set k0 ?v res] =>
             destruct (IH (dict_set k0 v res) k (NoDup_dict_set _ _ _ NDr))
               as [N1 G1]
         end;
         split; [exact N1|];
         rewrite G1, dict_get_set_neq by exact N; reflexivity).
Qed.

Lemma keys_live_incl (items : dict chain) : incl (keys (live items)) (keys items).
Proof.
  induction items as [|[k c] items IH]; [apply incl_refl|].
  rewrite live_cons. change (keys ((k, c) :: items)) with (k :: keys items).
  destruct (last_item c) as [[ts [v|]]|]; try (apply incl_tl; exact IH).
  apply incl_cons; [left; reflexivity | apply incl_tl; exact IH].
Qed.

Lemma live_get (items : dict chain) (k : key) :
  NoDup (keys items) ->
  dict_get k (live items) =
  match dict_get k items with
  | Some c => match last_item c with
              | Some (_, Val v) => Some v
              | _ => None
              end
  | None => None
  end.
Proof.
  induction items as [|[k0 c0] items IH]; intros ND; [reflexivity|].
  simpl in ND. inversion ND as [|? ? NI ND']; subst.
  rewrite live_cons, dict_get_app. cbn [dict_get].
  destruct (String.eqb_spec k k0) as [E|N].
  - subst k0.
    assert (G : dict_get k (live items) = None).
    { apply dict_get_None. intros Hin. apply NI.
      apply (keys_live_incl items). exact Hin. }
    destruct (last_item c0) as [[ts [v|]]|]; cbn [dict_get].
    + rewrite String.eqb_refl. reflexivity.
    + exact G.
    + exact G.
  - rewrite <- (IH ND').
    destruct (last_item c0) as [[ts [v|]]|]; cbn [dict_get]; try reflexivity.
    apply String.eqb_neq in N. rewrite N. reflexivity.
Qed.

Lemma committed_at_or_before_absent (s : Store) (k : key) (ts : Z) :
  existsb (String.eqb k) (keys (_versions s)) = false ->
  _committed_at_or_before s k ts = VNone.
Proof.
  intros H. unfold _committed_at_or_before.
  destruct (dict_get k (_versions s)) as [c|] eqn:E; [|reflexivity].
  apply dict_get_Some_key in E.
  assert (X : existsb (String.eqb k) (keys (_versions s)) = true).
  { apply existsb_exists. exists k. split; [exact E | apply String.eqb_refl]. }
  congruence.
Qed.

Lemma snapshot_agrees_with_get_Inv (s : Store) :
  Inv s ->
  exists m,
    snapshot s = Ok m /\ NoDup (keys m) /\
    forall k d,
      get s k d = Ok (match dict_get k m with Some v => v | None => d end).
Proof.
  intros I.
  destruct (pop_cases (_tx_stack s)) as [[E _]|(rest & top & E & _)].
  - exists (live (_versions s)). split; [apply snapshot_closed; assumption|].
    split; [apply NoDup_keys_live, (inv_keys s I)|].
    intros k d. unfold get. rewrite E. cbn [rev overlay_hit].
    rewrite (live_get _ k (inv_keys s I)). unfold _latest_committed.
    destruct (dict_get k (_versions s)) as [c|]; [|reflexivity].
    destruct (last_item c) as [[ts [v|]]|]; reflexivity.
  - destruct (Inv_open s rest top I E) as (snaps & Es & _).
    pose proof (project_at_get s (_clock s) (keys (_versions s)) []) as PG.
    assert (ND0 : NoDup (keys (@nil (key * value)))) by constructor.
    destruct (overlay_stack_get (_tx_stack s) (inv_overlays s I)
                (project_at s (keys (_versions s)) (_clock s) [])
                EmptyString (proj1 (PG EmptyString ND0))) as [NDm _].
    exists (fold_left apply_overlay (_tx_stack s)
                      (project_at s (keys (_versions s)) (_clock s) [])).
    split; [|split; [exact NDm|]].
    + unfold snapshot. rewrite Es, last_item_snoc.
      destruct (_tx_stack s); [destruct rest; discriminate | reflexivity].
    + intros k d.
      destruct (overlay_stack_get (_tx_stack s) (inv_overlays s I)
                  (project_at s (keys (_versions s)) (_clock s) [])
                  k (proj1 (PG k ND0))) as [_ G].
      rewrite G. unfold get.
      destruct (overlay_hit (rev (_tx_stack s)) k) as [[v|]|]; try reflexivity.
      rewrite Es, last_item_snoc.
      destruct (_tx_stack s); [destruct rest; discriminate|].
      rewrite (proj2 (PG k ND0)).
      destruct (existsb (String.eqb k) (keys (_versions s))) eqn:X.
      * destruct (_committed_at_or_before s k (_clock s)); reflexivity.
      * rewrite (committed_at_or_before_absent s k _ X). reflexivity.
Qed.

(** X6.  [snapshot] and [get] agree.  On every store reached from the
    constructor, [snapshot()] returns a map with one entry per key, and for
    every key and default [get(k, d)] returns the map's value for [k] if
    the map has one and [d] otherwise.  This includes stored [None]s: a key
    the snapshot leaves out reads as the default. *)
Theorem snapshot_agrees_with_get :
  forall (initial : option (dict value)) (sqlite_path : option string)
         (d0 : disk) (ops : list op),
    let s := fst (exec (__init__ initial sqlite_path d0) ops) in
    exists m,
      snapshot s = Ok m /\ NoDup (keys m) /\
      forall k d,
        get s k d = Ok (match dict_get k m with Some v => v | None => d end).
Proof.
  intros initial sqlite_path d0 ops s.
  apply snapshot_agrees_with_get_Inv. apply reachable_Inv.
Qed.

(** ** The committed history *)

(** Induction over the committed state: what holds of the empty store and
    is kept by every committed write holds of every reachable store. *)
Section CommittedState.
Variable P : dict chain -> Z -> Prop.
Hypothesis P_empty : P [] 0.
Hypothesis P_write :
  forall vs c k p, P vs c -> P (setdefault_append k (c + 1, p) vs) (c + 1).

Lemma fold_write_committed {A : Type} (f : A -> key) (g : A -> payload)
  (l : list A) (s : Store) :
  P (_versions s) (_clock s) ->
  P (_versions (fold_left (fun st a => write_version st (f a) (g a)) l s))
    (_clock (fold_left (fun st a => write_version st (f a) (g a)) l s)).
Proof.
  revert s. induction l as [|a l IH]; intros s H; [exact H|].
  cbn [fold_left]. apply IH. apply P_write. exact H.
Qed.

Lemma init_committed (initial : option (dict value))
  (sqlite_path : option string) (d : disk) :
  P (_versions (fst (__init__ initial sqlite_path d)))
    (_clock (fst (__init__ initial sqlite_path d))).
Proof.
  unfold __init__.
  assert (L : P (_versions (fst (match sqlite_path with
            | None => (mkStore [] [] [] 0 None sqlite_path, d)
            | Some p =>
                if String.eqb p EmptyString
                then (mkStore [] [] [] 0 None sqlite_path, d)
                else (load_rows (with_conn (mkStore [] [] [] 0 None sqlite_path)
                                           (Some p))
                                (disk_table p (connect p d)), connect p d)
            end)))
            (_clock (fst (match sqlite_path with
            | None => (mkStore [] [] [] 0 None sqlite_path, d)
            | Some p =>
                if String.eqb p EmptyString
                then (mkStore [] [] [] 0 None sqlite_path, d)
                else (load_rows (with_conn (mkStore [] [] [] 0 None sqlite_path)
                                           (Some p))
                                (disk_table p (connect p d)), connect p d)
            end)))).
  { destruct sqlite_path as [p|]; [|exact P_empty].
    destruct (String.eqb p EmptyString); [exact P_empty|].
    cbn [fst]. unfold load_rows. apply fold_write_committed. exact P_empty. }
  destruct initial as [ini|]; [|exact L].
  cbn [fst]. unfold seed. apply fold_write_committed. exact L.
Qed.

Lemma step_committed (w : world) (o : op) :
  P (_versions (fst w)) (_clock (fst w)) ->
  P (_versions (fst (fst (step w o)))) (_clock (fst (fst (step w o)))).
Proof.
  destruct w as [s d]. cbn [fst]. intros H.
  assert (W : forall k p,
             P (_versions (match pop (_tx_stack s) with
                           | Some (rest, top) => assign_innermost s rest top k p
                           | None => write_version s k p
                           end))
               (_clock (match pop (_tx_stack s) with
                        | Some (rest, top) => assign_innermost s rest top k p
                        | None => write_version s k p
                        end))).
  { intros k p. destruct (pop (_tx_stack s)) as [[rest top]|]; [exact H|].
    apply P_write. exact H. }
  destruct o; cbn [step fst].
  - apply W.
  - destruct (get s k default); exact H.
  - apply W.
  - exact H.
  - unfold commit. destruct (pop (_tx_stack s)) as [[rest top]|]; [|exact H].
    cbn [with_tx_stack _snapshots].
    destruct (pop (_snapshots s)) as [[snaps snap]|]; [|exact H].
    destruct (pop rest) as [[below parent]|]; [exact H|].
    destruct (first_conflict _ _ _); [exact H|].
    cbn [fst]. unfold write_all. apply fold_write_committed. exact H.
  - unfold rollback. destruct (pop (_tx_stack s)) as [[rest top]|]; [|exact H].
    cbn [with_tx_stack _snapshots].
    destruct (pop (_snapshots s)) as [[snaps snap]|]; exact H.
  - exact H.
  - destruct (snapshot s); exact H.
  - destruct (flush_to_sqlite s d); exact H.
  - exact H.
Qed.

Lemma reachable_committed (initial : option (dict value))
  (sqlite_path : option string) (d : disk) (ops : list op) :
  P (_versions (fst (exec (__init__ initial sqlite_path d) ops)))
    (_clock (fst (exec (__init__ initial sqlite_path d) ops))).
Proof.
  generalize (init_committed initial sqlite_path d).
  generalize (__init__ initial sqlite_path d). intros w.
  revert w. induction ops as [|o ops IH]; intros w H; [exact H|].
  cbn [exec fold_left]. apply IH. apply step_committed. exact H.
Qed.
End CommittedState.

Lemma all_timestamps_set (k : key) (c c' : chain) (vs : dict chain) :
  dict_get k vs = Some c ->
  forall t, Permutation (map fst c') (t :: map fst c) ->
  Permutation (all_timestamps (dict_set k c' vs)) (t :: all_timestamps vs).
Proof.
  unfold all_timestamps.
  induction vs as [|[k0 c0] vs IH]; intros G t Pc; [discriminate|].
  cbn [dict_get dict_set] in *. destruct (String.eqb k k0).
  - inversion G; subst. cbn [flat_map snd].
    change (t :: map fst c ++ flat_map (fun kc : key * chain => map fst (snd kc)) vs)
      with ((t :: map fst c) ++ flat_map (fun kc : key * chain => map fst (snd kc)) vs).
    apply Permutation_app_tail. exact Pc.
  - cbn [flat_map snd]. specialize (IH G t Pc).
    eapply Permutation_trans; [apply Permutation_app_head; exact IH|].
    apply Permutation_sym, Permutation_middle.
Qed.

Lemma all_timestamps_append (k : key) (t : Z) (p : payload) (vs : dict chain) :
  Permutation (all_timestamps (setdefault_append k (t, p) vs))
              (t :: all_timestamps vs).
Proof.
  unfold setdefault_append. destruct (dict_get k vs) as [c|] eqn:G.
  - apply (all_timestamps_set k c _ vs G). rewrite map_app. cbn [map fst].
    apply Permutation_sym, Permutation_cons_append.
  - rewrite dict_set_fresh by (apply dict_get_None; exact G).
    unfold all_timestamps. rewrite flat_map_app. cbn [flat_map map fst snd].
    rewrite app_nil_r. apply Permutation_sym, Permutation_cons_append.
Qed.

Lemma one_to_succ (c : Z) : 0 <= c -> one_to (c + 1) = one_to c ++ [c + 1].
Proof.
  intros H. unfold one_to.
  replace (Z.to_nat (c + 1)) with (Z.to_nat c + 1)%nat by lia.
  rewrite seq_app, map_app. cbn [seq map]. do 2 f_equal. lia.
Qed.

(** X7.  The clock counts the committed writes, and timestamps are never
    reused: on every store reached from the constructor, the timestamps of
    all entries of all chains are exactly [1], ..., [_clock], each once. *)
Theorem timestamps_are_one_to_clock :
  forall (initial : option (dict value)) (sqlite_path : option string)
         (d : disk) (ops : list op),
    let s := fst (exec (__init__ initial sqlite_path d) ops) in
    Permutation (all_timestamps (_versions s)) (one_to (_clock s)) /\
    NoDup (all_timestamps (_versions s)) /\
    Z.of_nat (List.length (all_timestamps (_versions s))) = _clock s.
Proof.
  intros initial sqlite_path d ops s.
  assert (H : 0 <= _clock s /\
              Permutation (all_timestamps (_versions s)) (one_to (_clock s))).
  { unfold s.
    apply (reachable_committed
             (fun vs c => 0 <= c /\ Permutation (all_timestamps vs) (one_to c))).
    - split; [lia | constructor].
    - intros vs c k p [C Pm]. split; [lia|].
      rewrite one_to_succ by exact C.
      eapply Permutation_trans; [apply all_timestamps_append|].
      eapply Permutation_trans; [apply perm_skip; exact Pm|].
      apply Permutation_cons_append. }
  destruct H as [C Pm]. split; [exact Pm|]. split.
  - apply (Permutation_NoDup (Permutation_sym Pm)). unfold one_to.
    apply Finite.Injective_map_NoDup; [|apply seq_NoDup].
    intros x y E. lia.
  - rewrite (Permutation_length Pm). unfold one_to.
    rewrite length_map, length_seq. lia.
Qed.

Lemma write_version_appends (s : Store) (k k' : key) (p : payload) :
  exists suffix,
    chain_of (write_version s k' p) k = chain_of s k ++ suffix /\
    Forall (fun e => _clock s < fst e) suffix.
Proof.
  unfold chain_of, write_version. cbn [_versions with_versions].
  rewrite setdefault_append_get. destruct (String.eqb_spec k k') as [E|N].
  - subst k'. exists [(_clock s + 1, p)]. split; [reflexivity|].
    constructor; [simpl; lia | constructor].
  - exists []. rewrite app_nil_r. split; [reflexivity | constructor].
Qed.

Lemma fold_write_appends {A : Type} (f : A -> key) (g : A -> payload)
  (l : list A) (k : key) :
  forall s : Store,
    exists suffix,
      chain_of (fold_left (fun st a => write_version st (f a) (g a)) l s) k =
      chain_of s k ++ suffix /\
      Forall (fun e => _clock s < fst e) suffix.
Proof.
  induction l as [|a l IH]; intros s.
  - exists []. rewrite app_nil_r. split; [reflexivity | constructor].
  - cbn [fold_left].
    destruct (write_version_appends s k (f a) (g a)) as (s1 & E1 & F1).
    destruct (IH (write_version s (f a) (g a))) as (s2 & E2 & F2).
    exists (s1 ++ s2). split.
    + rewrite E2, E1, app_assoc. reflexivity.
    + apply Forall_app. split; [exact F1|].
      eapply Forall_impl; [|exact F2]. simpl. intros; lia.
Qed.

Lemma step_appends (w : world) (o : op) (k : key) :
  exists suffix,
    chain_of (fst (fst (step w o))) k = chain_of (fst w) k ++ suffix /\
    Forall (fun e => _clock (fst w) < fst e) suffix.
Proof.
  destruct w as [s d]. cbn [fst].
  assert (Same : exists suffix,
             chain_of s k = chain_of s k ++ suffix /\
             Forall (fun e => _clock s < fst e) suffix).
  { exists []. rewrite app_nil_r. split; [reflexivity | constructor]. }
  assert (W : forall k' p, exists suffix,
             chain_of (match pop (_tx_stack s) with
                       | Some (rest, top) => assign_innermost s rest top k' p
                       | None => write_version s k' p
                       end) k = chain_of s k ++ suffix /\
             Forall (fun e => _clock s < fst e) suffix).
  { intros k' p. destruct (pop (_tx_stack s)) as [[rest top]|]; [exact Same|].
    apply write_version_appends. }
  destruct o; cbn [step fst].
  - apply W.
  - destruct (get s k0 default); exact Same.
  - apply W.
  - exact Same.
  - unfold commit. destruct (pop (_tx_stack s)) as [[rest top]|]; [|exact Same].
    cbn [with_tx_stack _snapshots].
    destruct (pop (_snapshots s)) as [[snaps snap]|]; [|exact Same].
    destruct (pop rest) as [[below parent]|]; [exact Same|].
    destruct (first_conflict _ _ _); [exact Same|].
    cbn [fst]. unfold write_all.
    apply (fold_write_appends fst snd top k
             (with_snapshots (with_tx_stack s rest) snaps)).
  - unfold rollback. destruct (pop (_tx_stack s)) as [[rest top]|]; [|exact Same].
    cbn [with_tx_stack _snapshots].
    destruct (pop (_snapshots s)) as [[snaps snap]|]; exact Same.
  - exact Same.
  - destruct (snapshot s); exact Same.
  - destruct (flush_to_sqlite s d); exact Same.
  - exact Same.
Qed.

(** X8.  History is append-only: from any store, whatever calls follow,
    the chain of every key keeps all the entries it had, in place, and
    only gains entries at its end, each with a timestamp later than the
    clock was.  No committed entry is ever rewritten or removed. *)
Theorem history_is_append_only :
  forall (w : world) (ops : list op) (k : key),
    exists suffix,
      chain_of (fst (exec w ops)) k = chain_of (fst w) k ++ suffix /\
      Forall (fun e => _clock (fst w) < fst e) suffix.
Proof.
  intros w ops k. revert w. induction ops as [|o ops IH]; intros w.
  - exists []. rewrite app_nil_r. split; [reflexivity | constructor].
  - cbn [exec fold_left].
    destruct (step_appends w o k) as (s1 & E1 & F1).
    destruct (IH (fst (step w o))) as (s2 & E2 & F2).
    exists (s1 ++ s2). split.
    + unfold exec in E2. rewrite E2, E1, app_assoc. reflexivity.
    + apply Forall_app. split; [exact F1|].
      pose proof (step_clock w o).
      eapply Forall_impl; [|exact F2]. simpl. intros; lia.
Qed.

Lemma committed_at_or_before_chain_of (s : Store) (k : key) (t : Z) :
  _committed_at_or_before s k t = scan_at_or_before (rev (chain_of s k)) t.
Proof.
  unfold _committed_at_or_before, chain_of.
  destruct (dict_get k (_versions s)) as [[|e c]|]; reflexivity.
Qed.

Lemma scan_skips_newer (newer older : list version) (t : Z) :
  Forall (fun e => t < fst e) newer ->
  scan_at_or_before (newer ++ older) t = scan_at_or_before older t.
Proof.
  induction newer as [|[ts p] newer IH]; intros F; [reflexivity|].
  inversion F; subst. simpl in *.
  destruct (ts <=? t) eqn:L; [lia | apply IH; assumption].
Qed.

(** X9.  Reads at a past timestamp are repeatable: from any store, for
    every timestamp [t] not after the current clock, whatever calls follow,
    [_committed_at_or_before(k, t)] keeps returning what it returns now:
    versions committed later are invisible at [t]. *)
Theorem past_reads_are_stable :
  forall (w : world) (ops : list op) (k : key) (t : Z),
    t <= _clock (fst w) ->
    _committed_at_or_before (fst (exec w ops)) k t =
    _committed_at_or_before (fst w) k t.
Proof.
  intros w ops k t. revert w. induction ops as [|o ops IH]; intros w H.
  - reflexivity.
  - cbn [exec fold_left]. pose proof (step_clock w o) as C.
    unfold exec in IH. rewrite IH by lia.
    destruct (step_appends w o k) as (suffix & E & F).
    rewrite !committed_at_or_before_chain_of, E, rev_app_distr.
    apply scan_skips_newer. apply Forall_rev.
    eapply Forall_impl; [|exact F]. simpl. intros; lia.
Qed.

Lemma past_reads_are_stable_witness :
  _committed_at_or_before
    (fst (exec (set new_store "k"%string (VStr "old"), [])
               [OSet "k"%string (VStr "new"); ODelete "k"%string]))
    "k"%string 1
  = VStr "old".
Proof.
  rewrite (past_reads_are_stable
             (set new_store "k"%string (VStr "old"), [])
             [OSet "k"%string (VStr "new"); ODelete "k"%string]
             "k"%string 1 ltac:(cbn; lia)).
  reflexivity.
Defined.

(** ** What begin and commit leave visible *)

Lemma committed_at_clock (s : Store) (k : key) :
  Inv s ->
  _committed_at_or_before s k (_clock s) =
  match _latest_committed s k with
  | Some (_, Val v) => v
  | _ => VNone
  end.
Proof.
  intros I. unfold _committed_at_or_before, _latest_committed.
  destruct (dict_get k (_versions s)) as [c|] eqn:E; [|reflexivity].
  apply dict_get_In in E.
  pose proof (inv_chains s I) as F. rewrite Forall_forall in F.
  destruct (F _ E) as (N & _ & G). simpl in N, G.
  destruct (pop_cases c) as [[Ec _]|(r & x & Ec & _)]; [contradiction|].
  subst c. rewrite last_item_snoc.
  apply Forall_app in G. destruct G as [_ G]. inversion G as [|? ? Hx _]; subst.
  destruct (r ++ [x]) eqn:Er; [destruct r; discriminate|].
  rewrite <- Er, rev_app_distr. cbn [rev app scan_at_or_before].
  destruct x as [ts p]. simpl in Hx.
  destruct (ts <=? _clock s) eqn:L; [reflexivity | lia].
Qed.

Lemma get_in_transaction (s : Store) (rest : list overlay) (top : overlay)
  (k : key) (d : value) :
  Inv s -> _tx_stack s = rest ++ [top] ->
  get s k d =
  match overlay_hit (rev (_tx_stack s)) k with
  | Some DELETED => Ok d
  | Some (Val v) => Ok v
  | None =>
      match _committed_at_or_before s k (_clock s) with
      | VNone => Ok d
      | val => Ok val
      end
  end.
Proof.
  intros I E. unfold get.
  destruct (Inv_open s rest top I E) as (snaps & Es & _).
  rewrite Es, last_item_snoc.
  destruct (_tx_stack s); [destruct rest; discriminate | reflexivity].
Qed.

Lemma get_closed (s : Store) (k : key) (d : value) :
  _tx_stack s = [] ->
  get s k d =
  match _latest_committed s k with
  | None => Ok d
  | Some (_, DELETED) => Ok d
  | Some (_, Val v) => Ok v
  end.
Proof. intros E. unfold get. rewrite E. reflexivity. Qed.

Lemma read_at_clock_is_latest (s : Store) (k : key) (d : value) :
  Inv s ->
  (forall ts, _latest_committed s k <> Some (ts, Val VNone)) ->
  match _committed_at_or_before s k (_clock s) with
  | VNone => Ok d
  | val => Ok val
  end =
  match _latest_committed s k with
  | None => Ok d
  | Some (_, DELETED) => Ok d
  | Some (_, Val v) => Ok v
  end.
Proof.
  intros I NN. rewrite (committed_at_clock s k I).
  destruct (_latest_committed s k) as [[ts [v|]]|] eqn:L; try reflexivity.
  destruct v; try reflexivity. exfalso. apply (NN ts). reflexivity.
Qed.

(** X10.  [begin] is invisible to reads: on a store reached from the
    constructor, [get(k, d)] right after [begin()] returns what it returned
    before, for every key whose latest committed value is not a stored
    [None]. *)
Theorem begin_is_invisible_to_reads :
  forall (initial : option (dict value)) (sqlite_path : option string)
         (d0 : disk) (ops : list op) (k : key) (d : value),
    let s := fst (exec (__init__ initial sqlite_path d0) ops) in
    (forall ts, _latest_committed s k <> Some (ts, Val VNone)) ->
    get (begin s) k d = get s k d.
Proof.
  intros initial sqlite_path d0 ops k d s NN.
  pose proof (reachable_Inv initial sqlite_path d0 ops) as I. fold s in I.
  rewrite (get_in_transaction (begin s) (_tx_stack s) [] k d
             (begin_Inv s I) eq_refl).
  cbn [begin _tx_stack _clock]. rewrite rev_app_distr.
  cbn [rev app overlay_hit dict_get].
  change (_committed_at_or_before (begin s) k (_clock s))
    with (_committed_at_or_before s k (_clock s)).
  destruct (pop_cases (_tx_stack s)) as [[E _]|(rest & top & E & _)].
  - rewrite (get_closed s k d E), E. cbn [rev overlay_hit].
    apply read_at_clock_is_latest; assumption.
  - rewrite (get_in_transaction s rest top k d I E). reflexivity.
Qed.

Lemma begin_is_invisible_to_reads_witness :
  get (begin (fst (exec (__init__ None None [])
                        [OSet "a"%string (VInt 1); ODelete "b"%string])))
      "a"%string VNone = Ok (VInt 1).
Proof.
  rewrite (begin_is_invisible_to_reads None None []
             [OSet "a"%string (VInt 1); ODelete "b"%string]
             "a"%string VNone ltac:(intros ts; discriminate)).
  reflexivity.
Defined.

(** X11.  [commit] is invisible to the committing reader: on a store
    reached from the constructor with a transaction open, [get(k, d)]
    right after [commit()] (nested or outermost) returns what it returned
    just before, for every key whose latest committed value is not a
    stored [None]: what the transaction saw is what is committed. *)
Theorem commit_is_invisible_to_the_reader :
  forall (initial : option (dict value)) (sqlite_path : option string)
         (d0 : disk) (ops : list op) (k : key) (d : value),
    let s := fst (exec (__init__ initial sqlite_path d0) ops) in
    in_transaction s = true ->
    (forall ts, _latest_committed s k <> Some (ts, Val VNone)) ->
    get (fst (commit s)) k d = get s k d.
Proof.
  intros initial sqlite_path d0 ops k d s T NN.
  pose proof (reachable_Inv initial sqlite_path d0 ops) as I. fold s in I.
  destruct (pop_cases (_tx_stack s)) as [[E _]|(rest & top & E & _)].
  { rewrite (in_transaction_false s E) in T. discriminate. }
  destruct (Inv_open s rest top I E) as (snaps & Es & Len & Fs).
  assert (NDtop : NoDup (keys top)).
  { pose proof (inv_overlays s I) as Ho. rewrite E in Ho.
    apply Forall_app in Ho. destruct Ho as [_ Ho]. inversion Ho; assumption. }
  rewrite (get_in_transaction s rest top k d I E).
  destruct (pop_cases rest) as [[Er _]|(below & parent & Er & _)].
  - (* outermost *)
    subst rest. rewrite (commit_on_reachable s top I E). cbn [fst].
    rewrite get_closed by (unfold write_all; apply fold_write_stack).
    rewrite E. cbn [app rev overlay_hit].
    destruct (dict_get k top) as [p|] eqn:G.
    + apply dict_get_In in G. apply In_nth_error in G. destruct G as (i & G).
      unfold _latest_committed.
      rewrite (write_all_chain top NDtop _ i k p G), last_item_snoc.
      destruct p; reflexivity.
    + apply dict_get_None in G. unfold _latest_committed.
      rewrite (write_all_other top _ k G). cbn [_versions].
      symmetry. apply (read_at_clock_is_latest s k d I NN).
  - (* nested *)
    subst rest.
    pose proof (commit_Inv s I) as I'.
    rewrite (commit_nested s _ _ _ _ _ E Es) in *. cbn [fst] in *.
    rewrite (get_in_transaction _ below (_merge_overlay_into top parent) k d
               I' eq_refl).
    cbn [_tx_stack _clock]. rewrite E, !rev_app_distr.
    cbn [rev app overlay_hit]. rewrite (merge_get top NDtop parent k).
    destruct (dict_get k top) as [p|]; reflexivity.
Qed.

Lemma commit_is_invisible_to_the_reader_witness :
  get (fst (commit (fst (exec (__init__ None None [])
                              [OSet "a"%string (VInt 1); OBegin;
                               OSet "b"%string (VInt 2)]))))
      "a"%string VNone = Ok (VInt 1).
Proof.
  rewrite (commit_is_invisible_to_the_reader None None []
             [OSet "a"%string (VInt 1); OBegin; OSet "b"%string (VInt 2)]
             "a"%string VNone eq_refl ltac:(intros ts; discriminate)).
  reflexivity.
Defined.

(** ** The store and the disk *)

Lemma step_disk (w : world) (o : op) :
  _sqlite_conn (fst w) = None -> snd (fst (step w o)) = snd w.
Proof.
  destruct w as [s d]. cbn [fst snd]. intros C. destruct o; cbn [step]; try reflexivity.
  - destruct (get s k default); reflexivity.
  - destruct (commit s); reflexivity.
  - destruct (rollback s); reflexivity.
  - destruct (snapshot s); reflexivity.
  - unfold flush_to_sqlite. rewrite C. reflexivity.
Qed.

Lemma exec_disk (ops : list op) (w : world) :
  _sqlite_conn (fst w) = None -> snd (exec w ops) = snd w.
Proof.
  revert w. induction ops as [|o ops IH]; intros w C; [reflexivity|].
  cbn [exec fold_left]. unfold exec in IH.
  rewrite IH by (apply step_conn; exact C). apply step_disk. exact C.
Qed.

Lemma init_without_path (initial : option (dict value)) (d : disk) :
  _sqlite_conn (fst (__init__ initial None d)) = None /\
  snd (__init__ initial None d) = d.
Proof.
  unfold __init__. destruct initial as [ini|]; [|split; reflexivity].
  cbn [fst snd]. unfold seed.
  rewrite (proj1 (proj1 (fold_write_grows fst (fun kv => Val (snd kv)) ini
                           (mkStore [] [] [] 0 None None)))).
  split; reflexivity.
Qed.

Lemma init_empty_path_disk (initial : option (dict value)) (d : disk) :
  snd (__init__ initial (Some EmptyString) d) = d.
Proof. unfold __init__. destruct initial; reflexivity. Qed.

(** X12.  A store without a connection never touches the disk: a store
    constructed with no path or with the empty path, and any store after
    [close()], leaves every file as it is, whatever calls follow
    ([flush_to_sqlite] included). *)
Theorem no_connection_no_disk_write :
  forall (initial : option (dict value)) (d : disk) (ops : list op),
    snd (exec (__init__ initial None d) ops) = d /\
    snd (exec (__init__ initial (Some EmptyString) d) ops) = d /\
    (forall s : Store, snd (exec (close s, d) ops) = d) /\
    (forall s : Store, snd (flush_to_sqlite (close s) d) = Ok tt).
Proof.
  intros initial d ops. split; [|split; [|split]].
  - rewrite exec_disk; apply init_without_path.
  - rewrite exec_disk; [apply init_empty_path_disk|].
    apply init_conn_empty_path.
  - intros s. apply (exec_disk ops (close s, d)). reflexivity.
  - intros s. reflexivity.
Qed.

(** ** What the constructor loads *)

Lemma fold_write_as_write_all {A : Type} (f : A -> key) (g : A -> payload)
  (l : list A) (s : Store) :
  fold_left (fun st a => write_version st (f a) (g a)) l s =
  write_all s (map (fun a => (f a, g a)) l).
Proof.
  unfold write_all. revert s. induction l as [|a l IH]; intros s; [reflexivity|].
  cbn [fold_left map fst snd]. apply IH.
Qed.

Lemma dict_get_map_values {A B : Type} (h : A -> B) (l : dict A) (k : key) :
  dict_get k (map (fun kv => (fst kv, h (snd kv))) l) =
  option_map h (dict_get k l).
Proof.
  induction l as [|[k0 a0] l IH]; [reflexivity|].
  cbn [map dict_get fst snd]. destruct (String.eqb k k0); [reflexivity | exact IH].
Qed.

Lemma keys_map_values {A B : Type} (h : A -> B) (l : dict A) :
  keys (map (fun kv => (fst kv, h (snd kv))) l) = keys l.
Proof.
  unfold keys. rewrite map_map. apply map_ext. reflexivity.
Qed.

Lemma latest_after_write_all (top : overlay) (s : Store) (k : key) :
  NoDup (keys top) ->
  option_map snd (_latest_committed (write_all s top) k) =
  match dict_get k top with
  | Some p => Some p
  | None => option_map snd (_latest_committed s k)
  end.
Proof.
  intros ND. unfold _latest_committed.
  destruct (dict_get k top) as [p|] eqn:G.
  - apply dict_get_In in G. apply In_nth_error in G. destruct G as (i & G).
    rewrite (write_all_chain top ND s i k p G), last_item_snoc. reflexivity.
  - apply dict_get_None in G. rewrite (write_all_other top s k G). reflexivity.
Qed.

Lemma get_by_latest (s : Store) (k : key) (d : value) :
  _tx_stack s = [] ->
  get s k d =
  match option_map snd (_latest_committed s k) with
  | Some (Val v) => Ok v
  | _ => Ok d
  end.
Proof.
  intros E. rewrite (get_closed s k d E).
  destruct (_latest_committed s k) as [[ts [v|]]|]; reflexivity.
Qed.

Lemma disk_table_connect (p : string) (d : disk) :
  disk_table p (connect p d) = disk_table p d.
Proof.
  unfold connect, disk_table.
  destruct (String.eqb p memory_path); [reflexivity|].
  destruct (dict_get p d) eqn:E.
  - rewrite E. reflexivity.
  - rewrite dict_get_set_eq. reflexivity.
Qed.

(** X13.  What a new store holds: constructed over a mirror file whose
    table has one row per key, with optional seed data, the store answers
    [get(k, d)] with the seed value of [k] if the seed has one, otherwise
    with the mirror's value for [k] if the table has a row, otherwise with
    [d]: seed data shadows the mirror, and no transaction is open. *)
Theorem constructor_loads_mirror_then_seed :
  forall (initial : option (dict value)) (p : string) (d0 : disk)
         (k : key) (d : value),
    p <> EmptyString ->
    NoDup (keys (disk_table p d0)) ->
    NoDup (keys (match initial with Some ini => ini | None => [] end)) ->
    let s := fst (__init__ initial (Some p) d0) in
    in_transaction s = false /\
    get s k d =
    match dict_get k (match initial with Some ini => ini | None => [] end) with
    | Some v => Ok v
    | None =>
        match dict_get k (disk_table p d0) with
        | Some x => Ok (fetch_value x)
        | None => Ok d
        end
    end.
Proof.
  intros initial p d0 k d Np NDr NDi s.
  apply String.eqb_neq in Np.
  set (rows := map (fun r : key * sqlvalue =>
                      (fst r, Val (fetch_value (snd r)))) (disk_table p d0)).
  set (s0 := with_conn (mkStore [] [] [] 0 None (Some p)) (Some p)).
  assert (Ei : exists ini : dict value,
             ini = match initial with Some i => i | None => [] end).
  { eexists. reflexivity. }
  destruct Ei as (ini & Ei). rewrite <- Ei in *.
  set (seeds := map (fun kv : key * value => (fst kv, Val (snd kv))) ini).
  assert (Es : s = write_all (write_all s0 rows) seeds).
  { unfold s, __init__. rewrite Np. cbn [fst snd].
    rewrite disk_table_connect. unfold load_rows, seed, seeds, rows.
    destruct initial as [i|]; subst ini; cbn [fst].
    - rewrite !fold_write_as_write_all. reflexivity.
    - rewrite fold_write_as_write_all. reflexivity. }
  assert (St : _tx_stack s = []).
  { rewrite Es. unfold write_all. rewrite !fold_write_stack. reflexivity. }
  split; [apply in_transaction_false; exact St|].
  rewrite (get_by_latest s k d St), Es.
  rewrite latest_after_write_all
    by (unfold seeds; rewrite (keys_map_values Val); exact NDi).
  unfold seeds. rewrite (dict_get_map_values Val).
  destruct (dict_get k ini) as [v|]; [reflexivity|]. cbn [option_map].
  rewrite latest_after_write_all
    by (unfold rows;
        rewrite (keys_map_values (fun x => Val (fetch_value x))); exact NDr).
  unfold rows. rewrite (dict_get_map_values (fun x => Val (fetch_value x))).
  destruct (dict_get k (disk_table p d0)) as [x|]; reflexivity.
Qed.

Lemma constructor_loads_mirror_then_seed_witness :
  get (fst (__init__ (Some [("b"%string, VInt 2)]) (Some "kv.sqlite"%string)
                     [("kv.sqlite"%string,
                       [("a"%string, SqlText "1"); ("b"%string, SqlNull)])]))
      "b"%string VNone = Ok (VInt 2).
Proof.
  refine (proj2 (constructor_loads_mirror_then_seed
                   (Some [("b"%string, VInt 2)]) "kv.sqlite"%string
                   [("kv.sqlite"%string,
                     [("a"%string, SqlText "1"); ("b"%string, SqlNull)])]
                   "b"%string VNone _ _ _)).
  - discriminate.
  - repeat constructor; simpl; intuition discriminate.
  - repeat constructor; simpl; intuition.
Defined.

(** ** What a flush writes *)

Lemma dict_get_rows_outside (ks : list key) (t : table) (k : key) :
  dict_get k (rows_outside ks t) =
  if existsb (String.eqb k) ks then None else dict_get k t.
Proof.
  unfold rows_outside. induction t as [|[k0 x0] t IH]; cbn [filter dict_get fst].
  - destruct (existsb (String.eqb k) ks); reflexivity.
  - destruct (existsb (String.eqb k0) ks) eqn:X0; cbn [negb dict_get].
    + rewrite IH. destruct (String.eqb_spec k k0) as [E|N]; [|reflexivity].
      subst k0. rewrite X0. reflexivity.
    + rewrite IH. destruct (String.eqb_spec k k0) as [E|N]; [|reflexivity].
      subst k0. rewrite X0. reflexivity.
Qed.

Lemma dict_get_stored_rows (items : dict chain) (k : key) :
  NoDup (keys items) ->
  dict_get k (stored_rows items) =
  match dict_get k items with
  | Some c =>
      match last_item c with
      | Some (_, Val v) =>
          match bind_value v with Ok x => Some x | Raise _ => None end
      | _ => None
      end
  | None => None
  end.
Proof.
  induction items as [|[k0 c0] items IH]; intros ND; [reflexivity|].
  simpl in ND. inversion ND as [|? ? NI ND']; subst.
  rewrite stored_rows_cons, dict_get_app. cbn [dict_get].
  destruct (String.eqb_spec k k0) as [E|N].
  - subst k0.
    assert (G : dict_get k (stored_rows items) = None).
    { apply dict_get_None. intros Hin. apply NI.
      apply (keys_stored_rows items). exact Hin. }
    destruct (last_item c0) as [[ts [v|]]|]; cbn [dict_get]; try exact G.
    destruct (bind_value v); cbn [dict_get]; [|exact G].
    rewrite String.eqb_refl. reflexivity.
  - rewrite <- (IH ND').
    destruct (last_item c0) as [[ts [v|]]|]; cbn [dict_get]; try reflexivity.
    destruct (bind_value v); cbn [dict_get]; [|reflexivity].
    apply String.eqb_neq in N. rewrite N. reflexivity.
Qed.

Lemma existsb_keys (k : key) {V : Type} (d : dict V) :
  existsb (String.eqb k) (keys d) =
  match dict_get k d with Some _ => true | None => false end.
Proof.
  induction d as [|[k0 v0] d IH]; [reflexivity|].
  cbn [keys map fst existsb dict_get]. fold (keys d).
  destruct (String.eqb k k0); [reflexivity | exact IH].
Qed.

Lemma flush_Ok_inv (s : Store) (d d' : disk) :
  flush_to_sqlite s d = (d', Ok tt) ->
  forall p, _sqlite_conn s = Some p ->
  exists t', flush_rows (_versions s) (disk_table p d) = Ok t' /\
             d' = write_table p t' d.
Proof.
  unfold flush_to_sqlite. intros H p C. rewrite C in H.
  destruct (flush_rows (_versions s) (disk_table p d)) as [t'|e];
    inversion H; subst. exists t'. split; reflexivity.
Qed.

Lemma flush_rows_binds (items : dict chain) :
  forall t t', flush_rows items t = Ok t' ->
  forall k c ts v, In (k, c) items -> last_item c = Some (ts, Val v) ->
                   exists x, bind_value v = Ok x.
Proof.
  induction items as [|[k0 c0] items IH]; intros t t' H k c ts v Hin L;
    [contradiction|].
  cbn [flush_rows] in H. destruct Hin as [E|Hin].
  - inversion E; subst k0 c0. rewrite L in H.
    destruct (bind_value v) as [x|e]; [exists x; reflexivity | discriminate].
  - destruct (last_item c0) as [[ts0 [v0|]]|]; [| |discriminate].
    + destruct (bind_value v0) as [x0|e0]; [|discriminate].
      apply (IH _ _ H k c ts v Hin L).
    + apply (IH _ _ H k c ts v Hin L).
Qed.

(** X14.  What a successful flush leaves in the mirror file: on a store
    reached from the constructor with its connection open on a file, after
    [flush_to_sqlite] has returned, the table holds for every key of the
    store whose latest entry is a value the SQLite value bound for it
    (NULL for [None], the text of a [str], the bytes of [bytes], the
    decimal text of an [int]), and no row if the latest entry is a
    tombstone; read back, the row is the latest value itself when that is
    [None], a [str] or [bytes]; rows of keys the store does not have are
    untouched; every other file is untouched. *)
Theorem flush_writes_latest_values :
  forall (initial : option (dict value)) (sqlite_path : option string)
         (d0 : disk) (ops : list op) (p : string) (d d' : disk),
    let s := fst (exec (__init__ initial sqlite_path d0) ops) in
    _sqlite_conn s = Some p ->
    p <> memory_path ->
    flush_to_sqlite s d = (d', Ok tt) ->
    (forall k,
       dict_get k (disk_table p d') =
       match dict_get k (_versions s) with
       | Some c =>
           match last_item c with
           | Some (_, Val v) =>
               match bind_value v with Ok x => Some x | Raise _ => None end
           | _ => None
           end
       | None => dict_get k (disk_table p d)
       end) /\
    (forall k c ts v,
       dict_get k (_versions s) = Some c ->
       last_item c = Some (ts, Val v) ->
       exists x, bind_value v = Ok x /\
                 dict_get k (disk_table p d') = Some x /\
                 (round_trips v = true -> fetch_value x = v)) /\
    (forall q, q <> p -> dict_get q d' = dict_get q d).
Proof.
  intros initial sqlite_path d0 ops p d d' s C Nm F.
  pose proof (reachable_Inv initial sqlite_path d0 ops) as I. fold s in I.
  apply String.eqb_neq in Nm.
  destruct (flush_Ok_inv s d d' F p C) as (t' & R & ->).
  assert (Rows : forall k,
             dict_get k (disk_table p (write_table p t' d)) =
             match dict_get k (_versions s) with
             | Some c =>
                 match last_item c with
                 | Some (_, Val v) =>
                     match bind_value v with
                     | Ok x => Some x
                     | Raise _ => None
                     end
                 | _ => None
                 end
             | None => dict_get k (disk_table p d)
             end).
  { intros k. rewrite disk_table_write_table, Nm.
    rewrite (flush_rows_Ok _ (inv_keys s I) _ _ R).
    rewrite dict_get_app, dict_get_rows_outside, existsb_keys.
    rewrite (dict_get_stored_rows _ k (inv_keys s I)).
    destruct (dict_get k (_versions s)) as [c|]; [reflexivity|].
    destruct (dict_get k (disk_table p d)); reflexivity. }
  split; [exact Rows|]. split.
  - intros k c ts v G L.
    destruct (flush_rows_binds _ _ _ R k c ts v (dict_get_In _ _ _ G) L)
      as (x & B).
    exists x. split; [exact B|]. split.
    + rewrite Rows, G, L, B. reflexivity.
    + intros T. destruct (proj1 (round_trips_spec v) T) as (x' & B' & Fe).
      rewrite B in B'. inversion B'; subst x'. exact Fe.
  - intros q N. unfold write_table. rewrite Nm.
    apply dict_get_set_neq. exact N.
Qed.

Lemma flush_writes_latest_values_witness :
  dict_get "a"%string
    (disk_table "kv.sqlite"%string
       (fst (flush_to_sqlite
               (fst (exec (__init__ None (Some "kv.sqlite"%string) [])
                          [OSet "a"%string (VStr "x"); OSet "b"%string VNone;
                           ODelete "b"%string]))
               [("kv.sqlite"%string, [("b"%string, SqlText "old")])])))
  = Some (SqlText "x").
Proof.
  rewrite (proj1 (flush_writes_latest_values None (Some "kv.sqlite"%string) []
                    [OSet "a"%string (VStr "x"); OSet "b"%string VNone;
                     ODelete "b"%string]
                    "kv.sqlite"%string
                    [("kv.sqlite"%string, [("b"%string, SqlText "old")])]
                    _ eq_refl ltac:(discriminate) eq_refl)).
  reflexivity.
Defined.

Lemma dict_set_twice {V : Type} (d : dict V) (k : key) (v : V) :
  dict_set k v (dict_set k v d) = dict_set k v d.
Proof.
  induction d as [|[k0 v0] d IH]; cbn [dict_set].
  - rewrite String.eqb_refl. reflexivity.
  - destruct (String.eqb k k0) eqn:E; cbn [dict_set]; rewrite E;
      [reflexivity | rewrite IH; reflexivity].
Qed.

Lemma filter_twice {A : Type} (f : A -> bool) (l : list A) :
  filter f (filter f l) = filter f l.
Proof.
  induction l as [|a l IH]; cbn [filter]; [reflexivity|].
  destruct (f a) eqn:E; cbn [filter].
  - rewrite E, IH. reflexivity.
  - exact IH.
Qed.

Lemma rows_outside_twice (ks : list key) (t : table) :
  rows_outside ks (rows_outside ks t) = rows_outside ks t.
Proof. unfold rows_outside. apply filter_twice. Qed.

Lemma flush_rows_outcome (items : dict chain) :
  forall t t' t2, flush_rows items t = Ok t' ->
                  exists t2', flush_rows items t2 = Ok t2'.
Proof.
  induction items as [|[k c] items IH]; intros t t' t2 H.
  - exists t2. reflexivity.
  - cbn [flush_rows] in *.
    destruct (last_item c) as [[ts [v|]]|]; [| |discriminate].
    + destruct (bind_value v) as [x|e]; [|discriminate].
      apply (IH _ _ _ H).
    + apply (IH _ _ _ H).
Qed.

(** X15.  Flushing is idempotent: on a store reached from the constructor,
    a [flush_to_sqlite] that follows a successful one, with no call in
    between, returns normally and leaves the disk exactly as the first
    left it. *)
Theorem flush_twice_is_flush_once :
  forall (initial : option (dict value)) (sqlite_path : option string)
         (d0 : disk) (ops : list op) (d d' : disk),
    let s := fst (exec (__init__ initial sqlite_path d0) ops) in
    flush_to_sqlite s d = (d', Ok tt) ->
    flush_to_sqlite s d' = (d', Ok tt).
Proof.
  intros initial sqlite_path d0 ops d d' s F.
  pose proof (reachable_Inv initial sqlite_path d0 ops) as I. fold s in I.
  destruct (_sqlite_conn s) as [p|] eqn:C.
  - destruct (flush_Ok_inv s d d' F p C) as (t' & R & ->).
    destruct (String.eqb p memory_path) eqn:Nm.
    { unfold write_table. rewrite Nm. unfold write_table in F.
      rewrite Nm in F. exact F. }
    unfold flush_to_sqlite. rewrite C.
    rewrite disk_table_write_table, Nm.
    destruct (flush_rows_outcome _ _ _ t' R) as (t2 & R2). rewrite R2.
    rewrite (flush_rows_Ok _ (inv_keys s I) _ _ R2).
    rewrite (flush_rows_Ok _ (inv_keys s I) _ _ R).
    rewrite rows_outside_app, rows_outside_twice.
    rewrite (rows_outside_covered _ (stored_rows (_versions s)))
      by apply keys_stored_rows.
    unfold write_table. rewrite Nm.
    rewrite app_nil_r, dict_set_twice. reflexivity.
  - unfold flush_to_sqlite in *. rewrite C in *. inversion F; subst.
    reflexivity.
Qed.

Lemma flush_twice_is_flush_once_witness :
  flush_to_sqlite
    (fst (exec (__init__ None (Some "kv.sqlite"%string) [])
               [OSet "a"%string (VStr "x"); ODelete "a"%string;
                OSet "b"%string VNone]))
    [("kv.sqlite"%string, [("b"%string, SqlNull)])]
  = ([("kv.sqlite"%string, [("b"%string, SqlNull)])], Ok tt).
Proof.
  exact (flush_twice_is_flush_once None (Some "kv.sqlite"%string) []
           [OSet "a"%string (VStr "x"); ODelete "a"%string;
            OSet "b"%string VNone]
           [] [("kv.sqlite"%string, [("b"%string, SqlNull)])] eq_refl).
Defined.




(** ** A transaction of one write *)

Lemma one_write_transaction (s : Store) (k : key) (p : payload) :
  Inv s -> _tx_stack s = [] ->
  commit (match pop (_tx_stack (begin s)) with
          | Some (rest, top) => assign_innermost (begin s) rest top k p
          | None => write_version (begin s) k p
          end) = (write_version s k p, Ok tt).
Proof.
  intros I E.
  assert (Es : _snapshots s = []).
  { pose proof (inv_depth s I) as Hd. rewrite E in Hd.
    destruct (_snapshots s); [reflexivity | discriminate]. }
  assert (I1 : Inv (match pop (_tx_stack (begin s)) with
                    | Some (rest, top) => assign_innermost (begin s) rest top k p
                    | None => write_version (begin s) k p
                    end)).
  { apply set_payload_Inv. apply begin_Inv. exact I. }
  revert I1. cbn [begin _tx_stack]. rewrite E. cbn [app pop].
  intros I1. rewrite (commit_on_reachable _ [(k, p)] I1).
  - unfold write_all. cbn [fold_left fst snd assign_innermost with_tx_stack
                           _versions _clock _sqlite_conn _sqlite_path].
    destruct s as [vs st sn c cn pa]. cbn in E, Es. subst st sn. reflexivity.
  - cbn [assign_innermost with_tx_stack _tx_stack dict_set app]. reflexivity.
Qed.

(** X17.  A transaction of one write is the write: on a store reached from
    the constructor with no transaction open, [begin(); set(k, v);
    commit()] returns normally and leaves exactly the store that [set(k,
    v)] alone leaves, and likewise for [delete(k)]. *)
Theorem one_write_transaction_is_autocommit :
  forall (initial : option (dict value)) (sqlite_path : option string)
         (d0 : disk) (ops : list op) (k : key) (v : value),
    let s := fst (exec (__init__ initial sqlite_path d0) ops) in
    in_transaction s = false ->
    commit (set (begin s) k v) = (set s k v, Ok tt) /\
    commit (delete (begin s) k) = (delete s k, Ok tt).
Proof.
  intros initial sqlite_path d0 ops k v s T.
  pose proof (reachable_Inv initial sqlite_path d0 ops) as I. fold s in I.
  assert (E : _tx_stack s = []).
  { unfold in_transaction in T. destruct (_tx_stack s); [reflexivity | discriminate]. }
  split.
  - unfold set at 1. rewrite (one_write_transaction s k (Val v) I E).
    unfold set. rewrite E. reflexivity.
  - unfold delete at 1. rewrite (one_write_transaction s k DELETED I E).
    unfold delete. rewrite E. reflexivity.
Qed.

Lemma one_write_transaction_is_autocommit_witness :
  commit (set (begin (fst (exec (__init__ None None [])
                                [OSet "a"%string (VInt 1)])))
              "a"%string (VInt 2))
  = (set (fst (exec (__init__ None None []) [OSet "a"%string (VInt 1)]))
         "a"%string (VInt 2), Ok tt).
Proof.
  exact (proj1 (one_write_transaction_is_autocommit None None []
                  [OSet "a"%string (VInt 1)] "a"%string (VInt 2) eq_refl)).
Defined.
